(** * S3ttle backend: conversation store, transcript service, usage ledger
      and response orchestrator

    A shallow embedding of the TypeScript services

      - [types/index.ts]              (data model)
      - [services/SessionStore.ts]    (module [SessionStore])
      - [services/MessageService.ts]  (module [MessageService])
      - [services/UsageService.ts]    (module [UsageService])
      - [services/AIService.ts]       (module [AIService])
      - [routes/messages.ts]          (module [Routes])
      - [components/ChatBubble.tsx]   (module [ChatBubble], the labels only)

    The module-level [Map]s of the services are the fields of one record
    [World]; the synchronous functions are written in a state-and-exception
    monad over it, and the [async] function [getAIResponse] is cut at its two
    [await]s into the pieces the JavaScript event loop runs atomically:
    code runs to its next [await] without interruption, and when a promise
    is resolved the continuations that await it run, in the order they
    began to wait, before anything else arrives from outside.

    The numbers [getSessionUsage] computes with are binary64 floating-point
    numbers, as in JavaScript (module [Number]). *)

From Stdlib Require Import ZArith Floats String List.
From stdpp Require Import gmap strings list fin_maps pretty.

#[local] Set Warnings "-inexact-float".

(** ** JavaScript numbers

    A JavaScript number is an IEEE 754 binary64 value. It is Rocq's
    primitive [float]: [+], [*] and [/] are the binary64 operations of the
    processor, rounding to nearest with ties to even, and [Prim2SF] gives
    the sign, the mantissa and the exponent of a number. *)
Module Number.

(** The number nearest to the integer [n], as sign, mantissa and exponent
    and as a number. *)
Definition SF_of_Z (n : Z) : spec_float := binary_normalize prec emax n 0 false.

Definition of_Z (n : Z) : float := SF2Prim (SF_of_Z n).

(** The integer a number holds, when it holds one. *)
Definition to_Z (x : float) : option Z :=
  match Prim2SF x with
  | S754_zero _ => Some 0%Z
  | S754_finite s m e =>
      let num := (Z.pos m * 2 ^ Z.max 0 e)%Z in
      let den := (2 ^ Z.max 0 (- e))%Z in
      if (num mod den =? 0)%Z then Some (cond_Zopp s (num / den)) else None
  | _ => None
  end.

(** The digits [x.toFixed(6)] writes for [|x| = m * 2^e] below [10^21]:
    the integer [n] for which [n / 10^6 - |x|] is nearest to zero, the
    larger one when two are as near. The string has the sign of [x], then
    [n] with a point before its last six digits. *)
Definition millionths (m : positive) (e : Z) : Z :=
  if (0 <=? e)%Z then (Z.pos m * 2 ^ e * 1000000)%Z
  else ((2 * Z.pos m * 1000000 + 2 ^ (- e)) / 2 ^ (1 - e))%Z.

(** [parseFloat] of such a string: the number nearest to [n / 10^6], ties
    to even, with the sign written; "-0.000000" reads as [-0]. The quotient
    of the two integers is rounded once, whatever the length of [n]. *)
Definition of_millionths (s : bool) (n : Z) : float :=
  match n with
  | Z.pos p =>
      SF2Prim (SFdiv prec emax (S754_finite s p 0) (S754_finite false 1000000 0))
  | _ => if s then neg_zero else zero
  end.

End Number.

(** ** Data model ([types/index.ts]) *)

(** A [Date] is its number of milliseconds since the epoch. *)
Definition Date := Z.
Bind Scope Z_scope with Date.

Inductive MessageAuthor := partner_a | partner_b | ai | system_summary.

#[global] Instance MessageAuthor_eq_dec : EqDecision MessageAuthor.
Proof. solve_decision. Defined.

Module Message.
Record t := mk {
  id : string;
  sessionId : string;
  author : MessageAuthor;
  content : string;
  createdAt : Date
}.
End Message.

Module Session.
Record t := mk {
  id : string;
  topic : string;
  createdAt : Date
}.
End Session.

Module AIResponse.
Record t := mk {
  content : string;
  inputTokens : Z;
  outputTokens : Z
}.
End AIResponse.

Module UsageRecord.
Record t := mk {
  sessionId : string;
  inputTokens : Z;
  outputTokens : Z;
  model : string;
  createdAt : Date
}.
End UsageRecord.

(** The token counts of a response and of a record are stored and passed
    on as they came; they are the integers the API reports. The totals and
    the cost of a summary are computed, and are the JavaScript numbers the
    computation gives. *)
Module UsageSummary.
Record t := mk {
  sessionId : string;
  totalInputTokens : float;
  totalOutputTokens : float;
  totalTokens : float;
  apiCalls : nat;
  estimatedCostUsd : float
}.
End UsageSummary.

(** ** The Anthropic SDK types used by [AIService.ts] *)

Inductive Role := user | assistant.

Module MessageParam.
Record t := mk { role : Role; content : string }.
End MessageParam.

(** The content blocks of a model response, a union tagged by [type]. *)
Inductive ContentBlock :=
| TextBlock (text : string)
| ThinkingBlock (thinking : string)
| ToolUseBlock (id name : string).

Definition block_type (block : ContentBlock) : string :=
  match block with
  | TextBlock _ => "text"
  | ThinkingBlock _ => "thinking"
  | ToolUseBlock _ _ => "tool_use"
  end.

Module ApiUsage.
Record t := mk { input_tokens : Z; output_tokens : Z }.
End ApiUsage.

Module ApiMessage.
Record t := mk { content : list ContentBlock; usage : ApiUsage.t }.
End ApiMessage.

(** ** Exceptions and outcomes *)

(** A thrown value: [new Error(message)]. *)
Inductive Exn := Error (message : string).

Inductive Outcome (A : Type) :=
| Return (a : A)
| Throw (e : Exn).
Arguments Return {A} a.
Arguments Throw {A} e.

(** ** Promises and calls in flight *)

(** A promise is identified by the order of its allocation. *)
Definition Promise := nat.

(** Where a call of [getAIResponse] stands: suspended at
    [await existingLock], suspended at [await getClient().messages.create]
    (holding the [resolve] of its own lock and the request it sent), or
    settled with its outcome. *)
Inductive Pc :=
| AwaitLock (existingLock : Promise)
| AwaitModel (lock : Promise) (claudeMessages : list MessageParam.t)
| Settled (result : Outcome AIResponse.t).

Module Task.
Record t := mk { sessionId : string; pc : Pc }.
End Task.

(** ** The state of the process *)

Record World := mkWorld {
  (* SessionStore.ts *)
  sessions : gmap string Session.t;
  messages : gmap string (list Message.t);
  (* UsageService.ts *)
  usageStore : gmap string (list UsageRecord.t);
  (* AIService.ts *)
  sessionLocks : gmap string Promise;
  (* the runtime: promises allocated, promises resolved, calls of
     getAIResponse in arrival order *)
  promises : nat;
  resolved : gset Promise;
  tasks : list Task.t;
  (* the environment: what the k-th call of uuidv4() and of new Date()
     gives, and how many calls were made *)
  uuid_source : nat → string;
  uuid_calls : nat;
  clock : nat → Date;
  clock_calls : nat
}.

Definition set_sessions (f : gmap string Session.t → gmap string Session.t) (w : World) : World :=
  mkWorld (f (sessions w)) (messages w) (usageStore w) (sessionLocks w)
          (promises w) (resolved w) (tasks w)
          (uuid_source w) (uuid_calls w) (clock w) (clock_calls w).

Definition set_messages (f : gmap string (list Message.t) → gmap string (list Message.t)) (w : World) : World :=
  mkWorld (sessions w) (f (messages w)) (usageStore w) (sessionLocks w)
          (promises w) (resolved w) (tasks w)
          (uuid_source w) (uuid_calls w) (clock w) (clock_calls w).

Definition set_usageStore (f : gmap string (list UsageRecord.t) → gmap string (list UsageRecord.t)) (w : World) : World :=
  mkWorld (sessions w) (messages w) (f (usageStore w)) (sessionLocks w)
          (promises w) (resolved w) (tasks w)
          (uuid_source w) (uuid_calls w) (clock w) (clock_calls w).

Definition set_sessionLocks (f : gmap string Promise → gmap string Promise) (w : World) : World :=
  mkWorld (sessions w) (messages w) (usageStore w) (f (sessionLocks w))
          (promises w) (resolved w) (tasks w)
          (uuid_source w) (uuid_calls w) (clock w) (clock_calls w).

Definition set_promises (f : nat → nat) (w : World) : World :=
  mkWorld (sessions w) (messages w) (usageStore w) (sessionLocks w)
          (f (promises w)) (resolved w) (tasks w)
          (uuid_source w) (uuid_calls w) (clock w) (clock_calls w).

Definition set_resolved (f : gset Promise → gset Promise) (w : World) : World :=
  mkWorld (sessions w) (messages w) (usageStore w) (sessionLocks w)
          (promises w) (f (resolved w)) (tasks w)
          (uuid_source w) (uuid_calls w) (clock w) (clock_calls w).

Definition set_tasks (f : list Task.t → list Task.t) (w : World) : World :=
  mkWorld (sessions w) (messages w) (usageStore w) (sessionLocks w)
          (promises w) (resolved w) (f (tasks w))
          (uuid_source w) (uuid_calls w) (clock w) (clock_calls w).

Definition set_uuid_calls (f : nat → nat) (w : World) : World :=
  mkWorld (sessions w) (messages w) (usageStore w) (sessionLocks w)
          (promises w) (resolved w) (tasks w)
          (uuid_source w) (f (uuid_calls w)) (clock w) (clock_calls w).

Definition set_clock_calls (f : nat → nat) (w : World) : World :=
  mkWorld (sessions w) (messages w) (usageStore w) (sessionLocks w)
          (promises w) (resolved w) (tasks w)
          (uuid_source w) (uuid_calls w) (clock w) (f (clock_calls w)).

(** The process as it starts: every [Map] empty, nothing in flight. *)
Definition boot (uuids : nat → string) (dates : nat → Date) : World :=
  mkWorld ∅ ∅ ∅ ∅ 0 ∅ [] uuids 0 dates 0.

(** ** The monad of synchronous code: state, and a thrown exception *)

Definition M (A : Type) : Type := World → Outcome A * World.

Definition ret {A} (a : A) : M A := fun w => (Return a, w).

Definition throw {A} (e : Exn) : M A := fun w => (Throw e, w).

Definition bind {A B} (m : M A) (k : A → M B) : M B :=
  fun w =>
    match m w with
    | (Return a, w') => k a w'
    | (Throw e, w') => (Throw e, w')
    end.

(** [try { body } finally { fin }]: [fin] runs on both exits and the outcome
    of [body] stands ([fin] here never throws). *)
Definition try_finally {A} (body : M A) (fin : World → World) : M A :=
  fun w => let '(r, w') := body w in (r, fin w').

Definition gets {A} (f : World → A) : M A := fun w => (Return (f w), w).

Definition modify (f : World → World) : M unit := fun w => (Return tt, f w).

Notation "'let*' x := m 'in' k" := (bind m (fun x => k))
  (at level 10, x name, m at level 100, k at level 200).
Notation "'run' m 'in' k" := (bind m (fun _ => k))
  (at level 10, m at level 100, k at level 200).

(** [uuidv4()] and [new Date()] read the environment. *)
Definition uuidv4 : M string :=
  fun w => (Return (uuid_source w (uuid_calls w)), set_uuid_calls S w).

Definition new_Date : M Date :=
  fun w => (Return (clock w (clock_calls w)), set_clock_calls S w).

(** ** SessionStore.ts *)

Module SessionStore.

Definition getSession (sessionId : string) : M (option Session.t) :=
  gets (fun w => sessions w !! sessionId).

Definition createSession (sessionId topic : string) : M Session.t :=
  let* now := new_Date in
  let session := Session.mk sessionId topic now in
  run modify (set_sessions (insert sessionId session)) in
  run modify (set_messages (insert sessionId [])) in
  ret session.

(** The error of [addMessage], thrown for an id with no message array. *)
Definition SessionNotFound (sessionId : string) : Exn :=
  Error ("Session " +:+ sessionId +:+ " not found").

Definition addMessage (sessionId : string) (message : Message.t) : M unit :=
  let* sessionMessages := gets (fun w => messages w !! sessionId) in
  match sessionMessages with
  | None => throw (SessionNotFound sessionId)
  | Some sessionMessages =>
      modify (set_messages (insert sessionId (sessionMessages ++ [message])))
  end.

Definition getMessages (sessionId : string) : M (list Message.t) :=
  gets (fun w => default [] (messages w !! sessionId)).

End SessionStore.

(** ** MessageService.ts *)

Module MessageService.

Definition saveMessage (sessionId : string) (author : MessageAuthor)
    (content : string) (topic : option string) : M Message.t :=
  let* existing := SessionStore.getSession sessionId in
  run match existing with
      | None =>
          run SessionStore.createSession sessionId (default "Untitled Decision" topic) in
          ret tt
      | Some _ => ret tt
      end in
  let* id := uuidv4 in
  let* now := new_Date in
  let message := Message.mk id sessionId author content now in
  run SessionStore.addMessage sessionId message in
  ret message.

Definition getConversationHistory (sessionId : string) : M (list Message.t) :=
  let* allMessages := SessionStore.getMessages sessionId in
  ret allMessages.

Definition getSession (sessionId : string) : M (option Session.t) :=
  SessionStore.getSession sessionId.

End MessageService.

(** ** UsageService.ts *)

Module UsageService.

Definition COST_PER_INPUT_TOKEN : float := (3 / 1000000)%float.
Definition COST_PER_OUTPUT_TOKEN : float := (15 / 1000000)%float.

(** [usageStore.get(sessionId)!.push(...)] on an id with no array. *)
Definition push_of_undefined : Exn :=
  Error "Cannot read properties of undefined (reading 'push')".

Definition recordUsage (sessionId : string) (inputTokens outputTokens : Z)
    (model : string) : M unit :=
  let* has := gets (fun w => bool_decide (is_Some (usageStore w !! sessionId))) in
  run (if has : bool then ret tt
       else modify (set_usageStore (insert sessionId []))) in
  let* records := gets (fun w => usageStore w !! sessionId) in
  let* now := new_Date in
  match records with
  | None => throw push_of_undefined
  | Some records =>
      modify (set_usageStore (insert sessionId
        (records ++ [UsageRecord.mk sessionId inputTokens outputTokens model now])))
  end.

(** [parseFloat(x.toFixed(6))]. For NaN, an infinity and a number of
    magnitude [10^21] or more [toFixed] writes what [String] writes, which
    [parseFloat] reads back as the same number; a zero is written
    "0.000000". *)
Definition toFixed6 (x : float) : float :=
  match Prim2SF x with
  | S754_finite s m e =>
      if (1e21 <=? abs x)%float then x
      else Number.of_millionths s (Number.millionths m e)
  | S754_zero _ => zero
  | _ => x
  end.

Definition getSessionUsage (sessionId : string) : M UsageSummary.t :=
  let* records := gets (fun w => default [] (usageStore w !! sessionId)) in
  let totalInputTokens :=
    fold_left (fun sum r => (sum + Number.of_Z (UsageRecord.inputTokens r))%float)
      records 0%float in
  let totalOutputTokens :=
    fold_left (fun sum r => (sum + Number.of_Z (UsageRecord.outputTokens r))%float)
      records 0%float in
  ret (UsageSummary.mk sessionId totalInputTokens totalOutputTokens
         (totalInputTokens + totalOutputTokens)%float
         (length records)
         (toFixed6 (totalInputTokens * COST_PER_INPUT_TOKEN
                    + totalOutputTokens * COST_PER_OUTPUT_TOKEN)%float)).

Definition getSessionUsageRecords (sessionId : string) : M (list UsageRecord.t) :=
  gets (fun w => default [] (usageStore w !! sessionId)).

End UsageService.

(** ** AIService.ts *)

Module AIService.

Definition AI_MODEL : string := "claude-sonnet-4-5-20250929".

Definition formatMessagesForClaude (messages : list Message.t) : list MessageParam.t :=
  map (fun msg =>
         if decide (Message.author msg = ai)
         then MessageParam.mk assistant (Message.content msg)
         else
           let label :=
             if decide (Message.author msg = partner_a)
             then "Partner A" else "Partner B" in
           MessageParam.mk user (label +:+ ": " +:+ Message.content msg))
      messages.

(** Step 4 of [getAIResponse]: [response.content.find(...)] and the
    conditional on its result. A block found by the test on [type] is a
    text block, so the middle case is never taken. *)
Definition extractText (content : list ContentBlock) : string :=
  match find (fun block => bool_decide (block_type block = "text")) content with
  | Some (TextBlock text) => text
  | Some _ => ""
  | None => ""
  end.

(** The [finally] block: [resolve!()] and [sessionLocks.delete(sessionId)]. *)
Definition release (lock : Promise) (sessionId : string) (w : World) : World :=
  set_sessionLocks (delete sessionId) (set_resolved (union {[lock]}) w).

(** From the creation of the lock to the suspension at the model call:
    the lock is stored, the history read and shaped, the request sent. *)
Definition enter (sessionId : string) (w : World) : Pc * World :=
  let '(lock, w) := (promises w, set_promises S w) in
  let w := set_sessionLocks (insert sessionId lock) w in
  match MessageService.getConversationHistory sessionId w with
  | (Return history, w) =>
      (AwaitModel lock (formatMessagesForClaude history), w)
  | (Throw e, w) => (Settled (Throw e), release lock sessionId w)
  end.

(** From the model's response to the [return], inside the [try]. The
    [console.log] has no effect on the state. *)
Definition complete (sessionId : string) (response : ApiMessage.t) : M AIResponse.t :=
  let aiContent := extractText (ApiMessage.content response) in
  let input_tokens := ApiUsage.input_tokens (ApiMessage.usage response) in
  let output_tokens := ApiUsage.output_tokens (ApiMessage.usage response) in
  run UsageService.recordUsage sessionId input_tokens output_tokens AI_MODEL in
  run MessageService.saveMessage sessionId ai aiContent None in
  ret (AIResponse.mk aiContent input_tokens output_tokens).

(** The call of [getAIResponse(sessionId)], run to its first suspension. *)
Definition getAIResponse (sessionId : string) (w : World) : World :=
  match sessionLocks w !! sessionId with
  | Some existingLock =>
      set_tasks (fun ts => ts ++ [Task.mk sessionId (AwaitLock existingLock)]) w
  | None =>
      let '(pc, w) := enter sessionId w in
      set_tasks (fun ts => ts ++ [Task.mk sessionId pc]) w
  end.

(** The continuation of [await existingLock], run once that promise is
    resolved: no second look at [sessionLocks]. *)
Definition resume (call : nat) (w : World) : World :=
  match tasks w !! call with
  | Some (Task.mk sessionId (AwaitLock existingLock)) =>
      if decide (existingLock ∈ resolved w)
      then let '(pc, w) := enter sessionId w in
           set_tasks (<[call := Task.mk sessionId pc]>) w
      else w
  | _ => w
  end.

(** The model call of [call] settles: the rest of the [try] on a
    response, nothing on a rejection, then the [finally]. *)
Definition settle (call : nat) (reply : Outcome ApiMessage.t) (w : World) : World :=
  match tasks w !! call with
  | Some (Task.mk sessionId (AwaitModel lock _)) =>
      let body : M AIResponse.t :=
        match reply with
        | Return response => complete sessionId response
        | Throw e => throw e
        end in
      let '(result, w) := try_finally body (release lock sessionId) w in
      set_tasks (<[call := Task.mk sessionId (Settled result)]>) w
  | _ => w
  end.

(** The reactions of a resolved promise run as microtasks, in the order
    they were registered. A call registers its reaction when it arrives,
    so that order is the order of [tasks]. *)
Definition run_microtasks (w : World) : World :=
  fold_left (fun w call => resume call w) (seq 0 (length (tasks w))) w.

(** What the event loop takes from outside: a call of [getAIResponse],
    and the settling of the model call of a call in flight. A failure of
    the model call, however early it is raised, reaches the [finally] the
    same way and is the event [ModelFailed]. *)
Inductive Event :=
| Call (sessionId : string)
| ModelReplied (call : nat) (response : ApiMessage.t)
| ModelFailed (call : nat) (e : Exn).

Definition handle (ev : Event) (w : World) : World :=
  run_microtasks
    match ev with
    | Call sessionId => getAIResponse sessionId w
    | ModelReplied call response => settle call (Return response) w
    | ModelFailed call e => settle call (Throw e) w
    end.

(** Calls of [getAIResponse] for [sessionId] that are past the lock and
    have not reached the [finally]. *)
Definition holds (sessionId : string) (w : World) (call : nat) : bool :=
  match tasks w !! call with
  | Some (Task.mk sid (AwaitModel _ _)) => bool_decide (sid = sessionId)
  | _ => false
  end.

Definition holders (sessionId : string) (w : World) : list nat :=
  List.filter (holds sessionId w) (seq 0 (length (tasks w))).

End AIService.

(** ** routes/messages.ts: [POST /message] *)

Module Routes.

Module SendMessageRequest.
Record t := mk {
  sessionId : string;
  author : MessageAuthor;
  content : string;
  topic : option string
}.
End SendMessageRequest.

(** The handler up to its suspension at [await AIService.getAIResponse]:
    the two validations (status 400), then the human's message is saved
    and the turn requested. A throw of [saveMessage] is caught (status
    500) before the turn is requested. *)
Definition post_message (req : SendMessageRequest.t) (w : World) : World :=
  let sessionId := SendMessageRequest.sessionId req in
  let author := SendMessageRequest.author req in
  let content := SendMessageRequest.content req in
  if bool_decide (sessionId = "" ∨ content = "") then w
  else if bool_decide (author ≠ partner_a ∧ author ≠ partner_b) then w
  else
    match MessageService.saveMessage sessionId author content
            (SendMessageRequest.topic req) w with
    | (Return _, w) => AIService.handle (AIService.Call sessionId) w
    | (Throw _, w) => w
    end.

(** What a handler answers: [res.json(body)], [res.status(code).json({ error })],
    or nothing of its own when a call throws and the handler has no
    [catch]. *)
Inductive Response (A : Type) :=
| Json (body : A)
| Status (code : nat) (error : string)
| Uncaught (e : Exn).
Arguments Json {A} body.
Arguments Status {A} code error.
Arguments Uncaught {A} e.

Module SessionView.
Record t := mk { id : string; topic : string; createdAt : Date }.
End SessionView.

Module MessageView.
Record t := mk {
  id : string;
  author : MessageAuthor;
  content : string;
  createdAt : Date
}.
End MessageView.

Module MessagesBody.
Record t := mk { session : SessionView.t; messages : list MessageView.t }.
End MessagesBody.

Module RecordView.
Record t := mk {
  inputTokens : Z;
  outputTokens : Z;
  model : string;
  createdAt : Date
}.
End RecordView.

Module UsageBody.
Record t := mk { summary : UsageSummary.t; records : list RecordView.t }.
End UsageBody.

(** [GET /messages/:sessionId]. The functions called read the state and
    leave it as it is. *)
Definition get_messages (sessionId : string) (w : World) : Response MessagesBody.t :=
  match fst (MessageService.getSession sessionId w) with
  | Throw e => Uncaught e
  | Return None => Status 404 "Session not found"
  | Return (Some session) =>
      match fst (MessageService.getConversationHistory sessionId w) with
      | Throw e => Uncaught e
      | Return messages =>
          Json (MessagesBody.mk
                  (SessionView.mk (Session.id session) (Session.topic session)
                                  (Session.createdAt session))
                  (map (fun m => MessageView.mk (Message.id m) (Message.author m)
                                   (Message.content m) (Message.createdAt m))
                       messages))
      end
  end.

(** [GET /usage/:sessionId]. *)
Definition get_usage (sessionId : string) (w : World) : Response UsageBody.t :=
  match fst (MessageService.getSession sessionId w) with
  | Throw e => Uncaught e
  | Return None => Status 404 "Session not found"
  | Return (Some session) =>
      match fst (UsageService.getSessionUsage sessionId w),
            fst (UsageService.getSessionUsageRecords sessionId w) with
      | Return summary, Return records =>
          Json (UsageBody.mk summary
                  (map (fun r => RecordView.mk (UsageRecord.inputTokens r)
                                   (UsageRecord.outputTokens r)
                                   (UsageRecord.model r) (UsageRecord.createdAt r))
                       records))
      | Throw e, _ => Uncaught e
      | _, Throw e => Uncaught e
      end
  end.

End Routes.

(** ** components/ChatBubble.tsx: who a bubble is shown to be from *)

Module ChatBubble.

Definition isOwn (author currentUser : MessageAuthor) : bool :=
  bool_decide (author = currentUser).

Definition isAI (author : MessageAuthor) : bool :=
  bool_decide (author = ai).

Definition isPartner (author currentUser : MessageAuthor) : bool :=
  negb (isOwn author currentUser) && negb (isAI author).

Definition authorLabel (author currentUser : MessageAuthor) : string :=
  if isAI author then "S3ttle"
  else if isOwn author currentUser then "You"
  else "Partner".

(** The class that puts the bubble on the right or on the left. *)
Definition justify (author currentUser : MessageAuthor) : string :=
  if isOwn author currentUser then "justify-end" else "justify-start".

(** The classes of the bubble's colours. *)
Definition bubble (author currentUser : MessageAuthor) : string :=
  if isAI author then "bg-muted text-foreground border border-border"
  else if isOwn author currentUser then "bg-primary text-primary-foreground"
  else "bg-secondary text-secondary-foreground".

End ChatBubble.

(** * Vocabulary of the statements *)

(** [createSession] is the only writer of [sessions] and the only creator
    of an entry of [messages], so both [Map]s hold the same ids. *)
Definition store_wf (w : World) : Prop :=
  dom (sessions w) = dom (messages w).

(** Every stored message got its id from a call of [uuidv4()] made so far. *)
Definition ids_generated (w : World) : Prop :=
  ∀ sessionId stored message,
    messages w !! sessionId = Some stored → message ∈ stored →
    ∃ k, k < uuid_calls w ∧ Message.id message = uuid_source w k.

(** The message [saveMessage] builds in [w] when the clock has been read
    [reads] times since the call began. *)
Definition saved (sessionId : string) (author : MessageAuthor) (content : string)
    (w : World) (reads : nat) : Message.t :=
  Message.mk (uuid_source w (uuid_calls w)) sessionId author content
             (clock w (reads + clock_calls w)).

(** The synchronous services leave the orchestrator's state alone. *)
Definition same_runtime (w w' : World) : Prop :=
  sessionLocks w' = sessionLocks w ∧ promises w' = promises w
  ∧ resolved w' = resolved w ∧ tasks w' = tasks w
  ∧ uuid_source w' = uuid_source w ∧ clock w' = clock w.

(** What the services keep: sessions, messages, usage records and the
    environment's counters. *)
Definition same_stores (w w' : World) : Prop :=
  sessions w' = sessions w ∧ messages w' = messages w
  ∧ usageStore w' = usageStore w
  ∧ uuid_calls w' = uuid_calls w ∧ clock_calls w' = clock_calls w
  ∧ uuid_source w' = uuid_source w ∧ clock w' = clock w.

(** Blocks before the first text block. *)
Definition no_text (blocks : list ContentBlock) : Prop :=
  Forall (fun block => block_type block ≠ "text") blocks.

(** A call suspended at [await existingLock]. *)
Definition waits_for (lock : Promise) (t : Task.t) : Prop :=
  Task.pc t = AwaitLock lock.

Definition waiting (t : Task.t) : Prop :=
  ∃ lock, waits_for lock t.

(** No call waits for a resolved lock. *)
Definition awake (w : World) (call : nat) : Prop :=
  ∀ t lock, tasks w !! call = Some t → waits_for lock t → lock ∉ resolved w.

(** [run_microtasks] over any list of calls. *)
Definition resume_all (calls : list nat) (w : World) : World :=
  fold_left (fun w call => AIService.resume call w) calls w.

(** The worlds the process can be in: it starts, requests are posted, the
    model calls in flight settle. *)
Inductive reachable : World → Prop :=
| reachable_boot uuids dates : reachable (boot uuids dates)
| reachable_post req w :
    reachable w → reachable (Routes.post_message req w)
| reachable_event ev w :
    reachable w → reachable (AIService.handle ev w).

(** * Scenarios *)

(** A process whose [uuidv4()] gives "0", "1", ... and whose clock advances
    by one millisecond at each reading. *)
Definition ex_uuids (k : nat) : string := pretty k.

Definition ex_dates (k : nat) : Date := (1770000000000 + Z.of_nat k)%Z.

Definition ex_boot : World := boot ex_uuids ex_dates.

Definition ex_post (author : MessageAuthor) (content : string)
    (topic : option string) : World → World :=
  Routes.post_message (Routes.SendMessageRequest.mk "s1" author content topic).

(** Partner A has posted the first message of session "s1"; its turn
    (call 0) waits for the model. *)
Definition ex_one_post : World :=
  ex_post partner_a "Should we move?" (Some "Moving") ex_boot.

(** Partner B, then partner A again, post while call 0 waits for the
    model: calls 1 and 2 wait for the lock of call 0. *)
Definition ex_three_posts : World :=
  ex_post partner_a "Why not?" None
    (ex_post partner_b "I am not sure" None ex_one_post).

Definition ex_reply (text : string) : ApiMessage.t :=
  ApiMessage.mk [ThinkingBlock "..."; TextBlock text] (ApiUsage.mk 120 340).

(** The model answers call 0. *)
Definition ex_first_reply : World :=
  AIService.handle (AIService.ModelReplied 0 (ex_reply "Tell me more")) ex_three_posts.

(** The model answers call 1. *)
Definition ex_second_reply : World :=
  AIService.handle (AIService.ModelReplied 1 (ex_reply "What about work?")) ex_first_reply.



(** Partner B posts once more. *)
Definition ex_fourth_post : World :=
  ex_post partner_b "Work is fine" None ex_second_reply.

(** The transcript of "s1" once partners A, B, A have posted and the model
    has answered call 0. *)
Definition ex_transcript : list MessageParam.t :=
  [MessageParam.mk user "Partner A: Should we move?";
   MessageParam.mk user "Partner B: I am not sure";
   MessageParam.mk user "Partner A: Why not?";
   MessageParam.mk assistant "Tell me more"].

(** A session created and given one message through the store alone. *)
Definition ex_message : Message.t :=
  Message.mk "m1" "s1" partner_a "Should we move?" 1770000000001.

Definition ex_stored : World :=
  snd (SessionStore.addMessage "s1" ex_message
         (snd (SessionStore.createSession "s1" "Moving" ex_boot))).

(** ** Calls in flight and steps of the process *)

(** Some call of [sessionId] is suspended at the model call and owns [lock]. *)
Definition in_flight (w : World) (sessionId : string) (lock : Promise) : Prop :=
  ∃ call request,
    tasks w !! call = Some (Task.mk sessionId (AwaitModel lock request)).

(** Every entry of [sessionLocks] is the lock of a call in flight, and
    every call that waits does so for a resolved lock or for the lock of a
    call in flight of its session. *)
Definition lock_inv (w : World) : Prop :=
  (∀ sessionId lock,
     sessionLocks w !! sessionId = Some lock → in_flight w sessionId lock)
  ∧ (∀ call sessionId lock,
       tasks w !! call = Some (Task.mk sessionId (AwaitLock lock)) →
       lock ∈ resolved w ∨ in_flight w sessionId lock).

(** What holds between two events: every entry of [sessionLocks] and every
    lock a call waits for is the lock of a call in flight of that session. *)
Definition locks_held (w : World) : Prop :=
  (∀ sessionId lock,
     sessionLocks w !! sessionId = Some lock → in_flight w sessionId lock)
  ∧ (∀ call sessionId lock,
       tasks w !! call = Some (Task.mk sessionId (AwaitLock lock)) →
       in_flight w sessionId lock).

(** One thing happens: a request is posted, or the event loop takes an
    event. *)
Inductive step : World → World → Prop :=
| step_post req w : step w (Routes.post_message req w)
| step_event ev w : step w (AIService.handle ev w).

(** The history and the usage records of a session, as the services hold
    them. *)
Definition history (w : World) (sessionId : string) : list Message.t :=
  default [] (messages w !! sessionId).

Definition records (w : World) (sessionId : string) : list UsageRecord.t :=
  default [] (usageStore w !! sessionId).

(** A call of [sessionId] that returned a result. *)
Definition returned (sessionId : string) (t : Task.t) : bool :=
  match Task.pc t with
  | Settled (Return _) => bool_decide (Task.sessionId t = sessionId)
  | _ => false
  end.

(** The number of calls of [getAIResponse] for [sessionId] that returned. *)
Definition successes (w : World) (sessionId : string) : nat :=
  length (List.filter (returned sessionId) (tasks w)).

Definition by_model (message : Message.t) : bool :=
  bool_decide (Message.author message = ai).

(** Usage records and messages of the model are as many as the calls that
    returned. *)
Definition accounts (w : World) : Prop :=
  ∀ sessionId,
    length (records w sessionId) = successes w sessionId
    ∧ length (List.filter by_model (history w sessionId)) = successes w sessionId.

(** What is stored for a session in [w] is still there in [w'], with more
    after it at most. *)
Definition extends (w w' : World) : Prop :=
  ∀ sessionId,
    history w sessionId `prefix_of` history w' sessionId
    ∧ records w sessionId `prefix_of` records w' sessionId
    ∧ ∀ session, sessions w !! sessionId = Some session →
                 sessions w' !! sessionId = Some session.

(** The message at a position of the stored sequence of a session. *)
Definition stored_at (w : World) (sessionId : string) (i : nat)
    (message : Message.t) : Prop :=
  ∃ stored, messages w !! sessionId = Some stored ∧ stored !! i = Some message.

(** No two stored messages share an id. *)
Definition unique_ids (w : World) : Prop :=
  ∀ sessionId1 i1 message1 sessionId2 i2 message2,
    stored_at w sessionId1 i1 message1 →
    stored_at w sessionId2 i2 message2 →
    Message.id message1 = Message.id message2 →
    sessionId1 = sessionId2 ∧ i1 = i2.

(** The clock of the process never goes back. *)
Definition clock_monotone (w : World) : Prop :=
  ∀ a b, a ≤ b → (clock w a ≤ clock w b)%Z.

(** A sequence of messages in the order of their times. *)
Definition chronological (l : list Message.t) : Prop :=
  ∀ i j earlier later,
    i ≤ j → l !! i = Some earlier → l !! j = Some later →
    (Message.createdAt earlier ≤ Message.createdAt later)%Z.

(** Every stored sequence is in the order of its times, and no stored time
    is after a reading of the clock still to come. *)
Definition timed (w : World) : Prop :=
  ∀ sessionId stored,
    messages w !! sessionId = Some stored →
    chronological stored
    ∧ ∀ message k, message ∈ stored → clock_calls w ≤ k →
                   (Message.createdAt message ≤ clock w k)%Z.

(** The session an event is about. *)
Definition event_session (w : World) (ev : AIService.Event) : option string :=
  match ev with
  | AIService.Call sessionId => Some sessionId
  | AIService.ModelReplied call _ | AIService.ModelFailed call _ =>
      Task.sessionId <$> tasks w !! call
  end.

(** Every session has a message. *)
Definition sessions_speak (w : World) : Prop :=
  ∀ sessionId session,
    sessions w !! sessionId = Some session → history w sessionId ≠ [].

(** The integers of magnitude below [2^53], those of
    [Number.isSafeInteger]. *)
Definition safe (n : Z) : Prop := (Z.abs n < 2 ^ 53)%Z.

(** The token counts of the records, input and output together, add up in
    magnitude to a safe integer; every sum of some of them is then safe. *)
Definition safe_totals (records : list UsageRecord.t) : Prop :=
  (foldr (fun r sum => Z.abs (UsageRecord.inputTokens r)
                       + Z.abs (UsageRecord.outputTokens r) + sum) 0 records
   < 2 ^ 53)%Z.

(** The binary64 form of the integer [q] with sign [s], for [0 < q < 2^53]:
    a mantissa of 53 bits. *)
Definition normal (s : bool) (q : Z) : spec_float :=
  S754_finite s (Z.to_pos (q * 2 ^ (52 - Z.log2 q))) (Z.log2 q - 52).

(** Everything stored under a session id carries that id. *)
Definition filed (w : World) : Prop :=
  ∀ sessionId,
    (∀ session, sessions w !! sessionId = Some session →
                Session.id session = sessionId)
    ∧ (∀ message, message ∈ history w sessionId →
                  Message.sessionId message = sessionId)
    ∧ (∀ record, record ∈ records w sessionId →
                 UsageRecord.sessionId record = sessionId).

(** * Properties *)

(** ** The store *)

Lemma store_wf_None (w : World) (sessionId : string) :
  store_wf w → (sessions w !! sessionId = None ↔ messages w !! sessionId = None).
Proof.
  unfold store_wf. intros Hdom.
  rewrite <- !not_elem_of_dom. by rewrite Hdom.
Qed.

Lemma store_wf_boot uuids dates : store_wf (boot uuids dates).
Proof. unfold store_wf, boot. simpl. by rewrite !dom_empty_L. Qed.

Section SessionStoreFacts.
Import SessionStore.

Lemma createSession_eq (sessionId topic : string) (w : World) :
  createSession sessionId topic w =
    (Return (Session.mk sessionId topic (clock w (clock_calls w))),
     set_messages (insert sessionId [])
       (set_sessions (insert sessionId
                        (Session.mk sessionId topic (clock w (clock_calls w))))
          (set_clock_calls S w))).
Proof. reflexivity. Qed.

Lemma createSession_wf (sessionId topic : string) (w : World) :
  store_wf w → store_wf (snd (createSession sessionId topic w)).
Proof.
  unfold store_wf. rewrite createSession_eq. simpl. intros Hdom.
  by rewrite !dom_insert_L, Hdom.
Qed.

Lemma addMessage_None (sessionId : string) (message : Message.t) (w : World) :
  messages w !! sessionId = None →
  addMessage sessionId message w = (Throw (SessionNotFound sessionId), w).
Proof. intros Hm. unfold addMessage, bind, gets. by rewrite Hm. Qed.

Lemma addMessage_Some (sessionId : string) (message : Message.t) (w : World)
    (sessionMessages : list Message.t) :
  messages w !! sessionId = Some sessionMessages →
  addMessage sessionId message w =
    (Return tt, set_messages (insert sessionId (sessionMessages ++ [message])) w).
Proof. intros Hm. unfold addMessage, bind, gets. by rewrite Hm. Qed.

Lemma addMessage_wf (sessionId : string) (message : Message.t) (w : World) :
  store_wf w → store_wf (snd (addMessage sessionId message w)).
Proof.
  intros Hwf. destruct (messages w !! sessionId) as [l|] eqn:Hm.
  - rewrite (addMessage_Some _ _ _ _ Hm). unfold store_wf in *. simpl.
    assert (sessionId ∈ dom (messages w)) as Hin by (apply elem_of_dom; eauto).
    rewrite dom_insert_L, Hwf. symmetry.
    apply subseteq_union_1_L. by apply singleton_subseteq_l.
  - by rewrite (addMessage_None _ _ _ Hm).
Qed.

End SessionStoreFacts.

(** C2, as the code has it: [createSession] has no check for an id already
    present and cannot throw. It returns a new record with the given topic
    and the current time, stores it under the id in place of any earlier
    one, and sets the id's message sequence to the empty one; the entries
    of every other id are as they were. *)
Theorem createSession_overwrites (w : World) (sessionId topic : string) :
  let session := Session.mk sessionId topic (clock w (clock_calls w)) in
  ∃ w', SessionStore.createSession sessionId topic w = (Return session, w')
        ∧ sessions w' !! sessionId = Some session
        ∧ messages w' !! sessionId = Some []
        ∧ fst (SessionStore.getMessages sessionId w') = Return []
        ∧ (∀ other, other ≠ sessionId →
             sessions w' !! other = sessions w !! other
             ∧ messages w' !! other = messages w !! other)
        ∧ usageStore w' = usageStore w.
Proof.
  intros session. eexists. split; [apply createSession_eq|]. simpl.
  unfold SessionStore.getMessages, gets. simpl.
  rewrite !lookup_insert_eq. repeat split; try done.
  all: by rewrite lookup_insert_ne.
Qed.

(** C9: on a store where [sessions] and [messages] hold the same ids,
    [addMessage] throws its "not found" error exactly when the id has no
    session, and then changes nothing; otherwise it returns, the id's
    sequence is the old one with the message added at its end, and the
    sessions and the sequences of the other ids are unchanged. *)
Theorem addMessage_spec (w : World) (sessionId : string) (message : Message.t) :
  store_wf w →
  (fst (SessionStore.addMessage sessionId message w)
     = Throw (SessionStore.SessionNotFound sessionId)
   ↔ sessions w !! sessionId = None)
  ∧ (sessions w !! sessionId = None →
     snd (SessionStore.addMessage sessionId message w) = w)
  ∧ (is_Some (sessions w !! sessionId) →
     ∃ w' earlier,
       SessionStore.addMessage sessionId message w = (Return tt, w')
       ∧ messages w !! sessionId = Some earlier
       ∧ messages w' !! sessionId = Some (earlier ++ [message])
       ∧ fst (SessionStore.getMessages sessionId w') = Return (earlier ++ [message])
       ∧ (∀ other, other ≠ sessionId → messages w' !! other = messages w !! other)
       ∧ sessions w' = sessions w
       ∧ usageStore w' = usageStore w).
Proof.
  intros Hwf. pose proof (store_wf_None w sessionId Hwf) as Hnone.
  destruct (messages w !! sessionId) as [earlier|] eqn:Hm.
  - assert (sessions w !! sessionId ≠ None) as Hs by (rewrite Hnone; done).
    rewrite (addMessage_Some _ _ _ _ Hm). simpl. split; [|split].
    + split; [discriminate | done].
    + done.
    + intros _. exists (set_messages (insert sessionId (earlier ++ [message])) w), earlier.
      unfold SessionStore.getMessages, gets. simpl.
      rewrite lookup_insert_eq. repeat split; try done.
      intros other Hne. by rewrite lookup_insert_ne.
  - assert (sessions w !! sessionId = None) as Hs by (by apply Hnone).
    rewrite (addMessage_None _ _ _ Hm). simpl. split; [|split]; try done.
    rewrite Hs. intros [? ?]. discriminate.
Qed.

(** ** The transcript service *)

Lemma ids_generated_boot uuids dates : ids_generated (boot uuids dates).
Proof. intros sessionId stored message Hm. simpl in Hm. by rewrite lookup_empty in Hm. Qed.

Section MessageServiceFacts.
Import MessageService.
Variables (sessionId : string) (author : MessageAuthor) (content : string)
          (topic : option string) (w : World).

Lemma saveMessage_absent :
  sessions w !! sessionId = None →
  saveMessage sessionId author content topic w =
    (Return (saved sessionId author content w 1),
     set_messages (insert sessionId [saved sessionId author content w 1])
       (set_clock_calls S (set_uuid_calls S
          (snd (SessionStore.createSession sessionId
                  (default "Untitled Decision" topic) w))))).
Proof.
  intros Hs. unfold saveMessage, bind, SessionStore.getSession, gets.
  rewrite Hs, createSession_eq. unfold ret, uuidv4, new_Date. simpl.
  erewrite addMessage_Some; [|simpl; apply lookup_insert_eq].
  reflexivity.
Qed.

Lemma saveMessage_present (session : Session.t) (earlier : list Message.t) :
  sessions w !! sessionId = Some session →
  messages w !! sessionId = Some earlier →
  saveMessage sessionId author content topic w =
    (Return (saved sessionId author content w 0),
     set_messages (insert sessionId (earlier ++ [saved sessionId author content w 0]))
       (set_clock_calls S (set_uuid_calls S w))).
Proof.
  intros Hs Hm. unfold saveMessage, bind, SessionStore.getSession, gets.
  rewrite Hs. unfold ret, uuidv4, new_Date. simpl.
  by erewrite addMessage_Some.
Qed.

End MessageServiceFacts.

Lemma same_runtime_refl w : same_runtime w w.
Proof. by repeat split. Qed.

Lemma same_runtime_trans w1 w2 w3 :
  same_runtime w1 w2 → same_runtime w2 w3 → same_runtime w1 w3.
Proof.
  unfold same_runtime. intros (?&?&?&?&?&?) (?&?&?&?&?&?).
  repeat split; congruence.
Qed.

Lemma saveMessage_result (sessionId : string) (author : MessageAuthor)
    (content : string) (topic : option string) (w : World) :
  store_wf w →
  let history := default [] (messages w !! sessionId) in
  let message :=
    saved sessionId author content w
          (match sessions w !! sessionId with None => 1 | Some _ => 0 end) in
  ∃ w', MessageService.saveMessage sessionId author content topic w
          = (Return message, w')
        ∧ messages w' = <[sessionId := history ++ [message]]> (messages w)
        ∧ sessions w' =
            match sessions w !! sessionId with
            | None => <[sessionId :=
                          Session.mk sessionId (default "Untitled Decision" topic)
                                     (clock w (clock_calls w))]> (sessions w)
            | Some _ => sessions w
            end
        ∧ usageStore w' = usageStore w
        ∧ uuid_calls w' = S (uuid_calls w)
        ∧ clock_calls w' =
            S (match sessions w !! sessionId with None => 1 | Some _ => 0 end
               + clock_calls w)
        ∧ same_runtime w w'.
Proof.
  intros Hwf history message.
  pose proof (store_wf_None w sessionId Hwf) as Hnone.
  destruct (sessions w !! sessionId) as [session|] eqn:Hs.
  - destruct (messages w !! sessionId) as [earlier|] eqn:Hm.
    2: { destruct Hnone as [_ Hn]. by specialize (Hn eq_refl). }
    eexists. split; [by eapply saveMessage_present|].
    subst history message. simpl. by repeat split.
  - assert (messages w !! sessionId = None) as Hm by (by apply Hnone).
    eexists. split; [by apply saveMessage_absent|].
    subst history message. rewrite Hm. simpl.
    rewrite insert_insert_eq. by repeat split.
Qed.

Lemma saveMessage_wf (sessionId : string) (author : MessageAuthor)
    (content : string) (topic : option string) (w : World) :
  store_wf w →
  store_wf (snd (MessageService.saveMessage sessionId author content topic w)).
Proof.
  intros Hwf.
  destruct (saveMessage_result sessionId author content topic w Hwf)
    as (w' & -> & Hm & Hs & _).
  unfold store_wf in *. simpl. rewrite Hm, Hs, dom_insert_L.
  destruct (sessions w !! sessionId) eqn:Hl.
  - rewrite <- Hwf. symmetry. apply subseteq_union_1_L, singleton_subseteq_l.
    apply elem_of_dom. eauto.
  - by rewrite dom_insert_L, Hwf.
Qed.

Lemma ids_generated_ext (w w' : World) :
  messages w' = messages w → uuid_calls w' = uuid_calls w →
  uuid_source w' = uuid_source w → ids_generated w → ids_generated w'.
Proof.
  intros Hm Hc Hs Hgen sid stored message. rewrite Hm, Hc, Hs. apply Hgen.
Qed.

Lemma saveMessage_ids_generated (sessionId : string) (author : MessageAuthor)
    (content : string) (topic : option string) (w : World) :
  store_wf w → ids_generated w →
  ids_generated (snd (MessageService.saveMessage sessionId author content topic w)).
Proof.
  intros Hwf Hgen.
  destruct (saveMessage_result sessionId author content topic w Hwf)
    as (w' & -> & Hm & _ & _ & Hcalls & _ & Hrt).
  destruct Hrt as (_ & _ & _ & _ & Hsrc & _). simpl.
  intros sid stored message Hst Hin. rewrite Hm in Hst. rewrite Hcalls, Hsrc.
  destruct (decide (sid = sessionId)) as [->|Hne].
  - rewrite lookup_insert_eq in Hst. injection Hst as <-.
    apply elem_of_app in Hin as [Hin|Hin].
    + destruct (messages w !! sessionId) as [earlier|] eqn:Hme.
      * destruct (Hgen _ _ _ Hme Hin) as (k & Hk & Hid). exists k. split; [lia|done].
      * simpl in Hin. by apply elem_of_nil in Hin.
    + apply list_elem_of_singleton in Hin as ->. exists (uuid_calls w).
      split; [lia|done].
  - rewrite lookup_insert_ne in Hst by done.
    destruct (Hgen _ _ _ Hst Hin) as (k & Hk & Hid). exists k. split; [lia|done].
Qed.

(** C6: on a store where [sessions] and [messages] hold the same ids,
    [saveMessage] returns the message it stored: its id is the value the
    call of [uuidv4()] gave, its time a reading of the clock taken during
    the call, its other fields the arguments. The history of the session
    is the old one with that message at its end, one longer; a session
    that did not exist now does, with the given topic or
    "Untitled Decision"; a session that existed is unchanged, as are the
    other sessions. When the stored ids all come from [uuidv4()] and
    [uuidv4()] never repeats a value, the new id differs from every stored
    one. *)
Theorem saveMessage_spec (w : World) (sessionId : string) (author : MessageAuthor)
    (content : string) (topic : option string) :
  store_wf w →
  let history := default [] (messages w !! sessionId) in
  ∃ message w',
    MessageService.saveMessage sessionId author content topic w = (Return message, w')
    ∧ Message.id message = uuid_source w (uuid_calls w)
    ∧ uuid_calls w' = S (uuid_calls w)
    ∧ (∃ k, clock_calls w ≤ k < clock_calls w' ∧ Message.createdAt message = clock w k)
    ∧ Message.sessionId message = sessionId
    ∧ Message.author message = author
    ∧ Message.content message = content
    ∧ fst (MessageService.getConversationHistory sessionId w) = Return history
    ∧ fst (MessageService.getConversationHistory sessionId w')
        = Return (history ++ [message])
    ∧ length (history ++ [message]) = S (length history)
    ∧ fst (MessageService.getSession sessionId w') =
        Return (Some (match sessions w !! sessionId with
                      | Some session => session
                      | None => Session.mk sessionId
                                  (default "Untitled Decision" topic)
                                  (clock w (clock_calls w))
                      end))
    ∧ (∀ other, other ≠ sessionId →
         sessions w' !! other = sessions w !! other
         ∧ messages w' !! other = messages w !! other)
    ∧ store_wf w'
    ∧ (ids_generated w →
       ids_generated w'
       ∧ (Inj (=) (=) (uuid_source w) →
          ∀ other stored old,
            messages w !! other = Some stored → old ∈ stored →
            Message.id old ≠ Message.id message)).
Proof.
  intros Hwf history.
  destruct (saveMessage_result sessionId author content topic w Hwf)
    as (w' & Heq & Hm & Hs & Hu & Hcalls & Hreads & Hrt).
  pose proof (saveMessage_wf sessionId author content topic w Hwf) as Hwf'.
  pose proof (saveMessage_ids_generated sessionId author content topic w Hwf) as Hgen'.
  rewrite Heq in Hwf', Hgen'. simpl in Hwf', Hgen'.
  eexists _, w'. split; [exact Heq|].
  assert (∃ k, clock_calls w ≤ k < clock_calls w'
               ∧ clock w (match sessions w !! sessionId with None => 1 | Some _ => 0 end
                          + clock_calls w) = clock w k) as Hclock.
  { eexists. split; [|reflexivity]. rewrite Hreads. lia. }
  unfold MessageService.getConversationHistory, MessageService.getSession,
    SessionStore.getMessages, SessionStore.getSession, bind, gets, ret. simpl.
  rewrite Hm, Hs, lookup_insert_eq. simpl.
  repeat split; try done.
  - rewrite length_app. simpl. lia.
  - destruct (sessions w !! sessionId) eqn:Hl; [by rewrite Hl|].
    by rewrite lookup_insert_eq.
  - destruct (sessions w !! sessionId); [done|]. by rewrite lookup_insert_ne.
  - by rewrite lookup_insert_ne.
  - by apply Hgen'.
  - intros Hinj other stored old Hst Hin Hid.
    match goal with Hgen : ids_generated w |- _ =>
      destruct (Hgen other stored old Hst Hin) as (k & Hk & Hidk) end.
    rewrite Hidk in Hid. apply Hinj in Hid. lia.
Qed.

(** ** The usage ledger *)

Section UsageServiceFacts.
Import UsageService.

Lemma recordUsage_eq (sessionId : string) (inputTokens outputTokens : Z)
    (model : string) (w : World) :
  recordUsage sessionId inputTokens outputTokens model w =
    (Return tt,
     set_usageStore
       (insert sessionId
          (default [] (usageStore w !! sessionId)
           ++ [UsageRecord.mk sessionId inputTokens outputTokens model
                 (clock w (clock_calls w))]))
       (set_clock_calls S w)).
Proof.
  unfold recordUsage, bind, gets, new_Date, ret, modify.
  destruct (usageStore w !! sessionId) as [records|] eqn:Hu.
  - rewrite bool_decide_eq_true_2 by eauto. simpl. by rewrite Hu.
  - rewrite bool_decide_eq_false_2 by (intros [? ?]; discriminate). simpl.
    rewrite lookup_insert_eq. unfold set_usageStore. simpl.
    by rewrite insert_insert_eq.
Qed.

Lemma recordUsage_wf sessionId inputTokens outputTokens model w :
  store_wf w →
  store_wf (snd (recordUsage sessionId inputTokens outputTokens model w)).
Proof. by rewrite recordUsage_eq. Qed.

End UsageServiceFacts.

(** C3, as the code has it: [recordUsage] checks nothing and cannot throw.
    For all token counts, negative ones included, it returns and the
    session's records are the old ones with one new record at the end,
    holding the arguments and the current time; the records of the other
    sessions and the store of messages are unchanged. *)
Theorem recordUsage_always_appends (w : World) (sessionId : string)
    (inputTokens outputTokens : Z) (model : string) :
  let records := default [] (usageStore w !! sessionId) in
  let record := UsageRecord.mk sessionId inputTokens outputTokens model
                  (clock w (clock_calls w)) in
  ∃ w', UsageService.recordUsage sessionId inputTokens outputTokens model w
          = (Return tt, w')
        ∧ fst (UsageService.getSessionUsageRecords sessionId w) = Return records
        ∧ fst (UsageService.getSessionUsageRecords sessionId w')
            = Return (records ++ [record])
        ∧ length (records ++ [record]) = S (length records)
        ∧ (∀ other, other ≠ sessionId →
             usageStore w' !! other = usageStore w !! other)
        ∧ sessions w' = sessions w ∧ messages w' = messages w.
Proof.
  intros records record. eexists. split; [apply recordUsage_eq|].
  unfold UsageService.getSessionUsageRecords, gets. simpl.
  rewrite lookup_insert_eq. repeat split; try done.
  - rewrite length_app. simpl. lia.
  - intros other Hne. by rewrite lookup_insert_ne.
Qed.

(** ** Sums of token counts in binary64 *)

Section NumberFacts.
Local Open Scope Z_scope.

Lemma digits2_log2 (p : positive) : Z.pos (digits2_pos p) = Z.log2 (Z.pos p) + 1.
Proof.
  assert (∀ q, digits2_pos q = Pos.size q) as Hsize
    by (induction q; simpl; congruence).
  rewrite Hsize. destruct p; simpl; lia.
Qed.

Lemma iter_xO (d m : positive) : Z.pos (Pos.iter xO m d) = Z.pos m * 2 ^ Z.pos d.
Proof.
  induction d as [|d IH] using Pos.peano_ind.
  - simpl. lia.
  - rewrite Pos.iter_succ, Pos2Z.inj_succ, Z.pow_succ_r by lia.
    rewrite Pos2Z.inj_xO, IH. ring.
Qed.

Lemma iter_pos_nat {A} (f : A → A) (n : positive) (x : A) :
  SpecFloat.iter_pos f n x = Nat.iter (Pos.to_nat n) f x.
Proof.
  revert x. induction n as [n IH|n IH|]; intros x; cbn [SpecFloat.iter_pos].
  - rewrite !IH, Pos2Nat.inj_xI, <- Nat.iter_add, <- Nat.iter_succ_r.
    f_equal. lia.
  - rewrite !IH, Pos2Nat.inj_xO, <- Nat.iter_add.
    f_equal. lia.
  - reflexivity.
Qed.

(** Shifting out zero bits loses nothing. *)
Lemma shr_exact (n : nat) (q : positive) :
  Nat.iter n shr_1 {| shr_m := Z.pos q * 2 ^ Z.of_nat n; shr_r := false; shr_s := false |}
  = {| shr_m := Z.pos q; shr_r := false; shr_s := false |}.
Proof.
  revert q. induction n as [|n IH]; intros q.
  - simpl. f_equal. lia.
  - rewrite Nat2Z.inj_succ, Z.pow_succ_r by lia.
    replace (Z.pos q * (2 * 2 ^ Z.of_nat n)) with (Z.pos (q~0) * 2 ^ Z.of_nat n) by lia.
    rewrite Nat.iter_succ, IH. reflexivity.
Qed.

Lemma log2_safe (q : Z) : 0 < q < 2 ^ 53 → 0 ≤ Z.log2 q < 53.
Proof.
  intros Hq. split; [apply Z.log2_nonneg|]. apply Z.log2_lt_pow2; lia.
Qed.

Lemma normal_mantissa_pos (q : Z) :
  0 < q < 2 ^ 53 →
  Z.pos (Z.to_pos (q * 2 ^ (52 - Z.log2 q))) = q * 2 ^ (52 - Z.log2 q).
Proof.
  intros Hq. pose proof (log2_safe q Hq).
  rewrite Z2Pos.id; [reflexivity|].
  apply Z.mul_pos_pos; [lia|]. apply Z.pow_pos_nonneg; lia.
Qed.

(** Rounding [q * 2^k], with its bits at or above the place the format
    keeps, gives the integer [q] in its binary64 form. *)
Lemma binary_round_aux_exact (s : bool) (M : positive) (k q : Z) :
  0 < q < 2 ^ 53 → Z.pos M = q * 2 ^ k → 52 - Z.log2 q ≤ k →
  binary_round_aux prec emax s (Z.pos M) (- k) loc_Exact = normal s q.
Proof.
  intros Hq HM Hk. pose proof (log2_safe q Hq) as Hlog.
  assert (Z.pos (digits2_pos M) = Z.log2 q + 1 + k) as Hd.
  { rewrite digits2_log2, HM, Z.log2_mul_pow2 by lia. lia. }
  pose proof (normal_mantissa_pos q Hq) as HQ. unfold normal.
  set (Q := Z.to_pos (q * 2 ^ (52 - Z.log2 q))) in *.
  assert (Z.pos (digits2_pos Q) = 53) as HdQ.
  { rewrite digits2_log2, HQ, Z.log2_mul_pow2 by lia. lia. }
  assert (shr_fexp prec emax (Z.pos M) (- k) loc_Exact
          = ({| shr_m := Z.pos Q; shr_r := false; shr_s := false |}, Z.log2 q - 52))
    as Hshift.
  { unfold shr_fexp, shr, shr_record_of_loc, Zdigits2, fexp, SpecFloat.emin, prec, emax.
    rewrite Hd, Z.max_l by lia.
    replace (Z.log2 q + 1 + k + - k - 53 - - k) with (Z.log2 q - 52 + k) by lia.
    destruct (Z.log2 q - 52 + k) as [|n|n] eqn:Hn; [| |lia].
    - f_equal; [|lia]. f_equal. rewrite HM, HQ. f_equal. f_equal. lia.
    - f_equal; [|lia]. rewrite iter_pos_nat.
      replace (Z.pos M) with (Z.pos Q * 2 ^ Z.of_nat (Pos.to_nat n)); [apply shr_exact|].
      rewrite HM, HQ, positive_nat_Z, <- Hn, <- Z.mul_assoc, <- Z.pow_add_r by lia.
      f_equal. f_equal. lia. }
  unfold binary_round_aux. rewrite Hshift.
  cbn [shr_m loc_of_shr_record round_nearest_even].
  unfold shr_fexp, shr, shr_record_of_loc, Zdigits2, fexp, SpecFloat.emin, prec, emax.
  rewrite HdQ, Z.max_l by lia.
  replace (53 + (Z.log2 q - 52) - 53 - (Z.log2 q - 52)) with 0 by lia.
  cbn [shr_m].
  replace (Z.log2 q - 52 <=? 1024 - 53) with true by (symmetry; apply Z.leb_le; lia).
  reflexivity.
Qed.

Lemma binary_round_exact (s : bool) (M : positive) (k q : Z) :
  0 ≤ k → 0 < q < 2 ^ 53 → Z.pos M = q * 2 ^ k →
  binary_round prec emax s M (- k) = normal s q.
Proof.
  intros Hk Hq HM. pose proof (log2_safe q Hq) as Hlog.
  assert (Z.pos (digits2_pos M) = Z.log2 q + 1 + k) as Hd.
  { rewrite digits2_log2, HM, Z.log2_mul_pow2 by lia. lia. }
  unfold binary_round, shl_align.
  rewrite Hd. unfold fexp, SpecFloat.emin, prec, emax.
  rewrite Z.max_l by lia.
  replace (Z.log2 q + 1 + k + - k - 53 - - k) with (Z.log2 q - 52 + k) by lia.
  destruct (Z.log2 q - 52 + k) as [|n|n] eqn:Hn.
  - apply binary_round_aux_exact; [done|done|lia].
  - apply binary_round_aux_exact; [done|done|lia].
  - replace (Z.log2 q + 1 + k + - k - 53) with (- (52 - Z.log2 q)) by lia.
    apply binary_round_aux_exact; [done| |lia].
    rewrite iter_xO, HM, <- Z.mul_assoc, <- Z.pow_add_r by lia.
    f_equal. f_equal. lia.
Qed.

(** A safe integer other than zero is its own binary64 form. *)
Lemma SF_of_Z_nonzero (n : Z) :
  n ≠ 0 → safe n → Number.SF_of_Z n = normal (n <? 0) (Z.abs n).
Proof.
  unfold safe. destruct n as [|p|p]; intros Hn Hs; [done| |].
  - apply (binary_round_exact false p 0); lia.
  - apply (binary_round_exact true p 0); lia.
Qed.

Lemma normal_valid (s : bool) (q : Z) :
  0 < q < 2 ^ 53 → valid_binary (normal s q) = true.
Proof.
  intros Hq. pose proof (log2_safe q Hq) as Hlog.
  unfold normal, SpecFloat.valid_binary, bounded, canonical_mantissa, fexp,
    SpecFloat.emin, prec, emax.
  rewrite digits2_log2, normal_mantissa_pos, Z.log2_mul_pow2 by lia.
  apply andb_true_intro. split; [apply Z.eqb_eq|apply Z.leb_le]; lia.
Qed.

Lemma SF_of_Z_valid (n : Z) : safe n → valid_binary (Number.SF_of_Z n) = true.
Proof.
  intros Hn. destruct (decide (n = 0)) as [->|Hn0]; [reflexivity|].
  rewrite SF_of_Z_nonzero by done. apply normal_valid. unfold safe in Hn. lia.
Qed.

Lemma Prim2SF_of_Z (n : Z) : safe n → Prim2SF (Number.of_Z n) = Number.SF_of_Z n.
Proof. intros Hn. by apply Prim2SF_SF2Prim, SF_of_Z_valid. Qed.

(** The mantissa of a safe integer, aligned to a lower exponent. *)
Lemma normal_mantissa (q ez : Z) :
  0 < q < 2 ^ 53 → ez ≤ Z.log2 q - 52 →
  Z.pos (fst (shl_align (Z.to_pos (q * 2 ^ (52 - Z.log2 q))) (Z.log2 q - 52) ez))
  = q * 2 ^ (- ez).
Proof.
  intros Hq Hez. pose proof (log2_safe q Hq) as Hlog.
  pose proof (normal_mantissa_pos q Hq) as HQ.
  unfold shl_align.
  destruct (ez - (Z.log2 q - 52)) as [|d|d] eqn:Hd; cbn [fst]; [|lia|].
  - rewrite HQ. f_equal. f_equal. lia.
  - rewrite iter_xO, HQ, <- Z.mul_assoc, <- Z.pow_add_r by lia. f_equal. f_equal. lia.
Qed.

Lemma cond_Zopp_abs (n : Z) : cond_Zopp (n <? 0) (Z.abs n) = n.
Proof. by destruct n. Qed.

(** The binary64 sum of two safe integers whose sum is safe is their sum. *)
Lemma SFadd_exact (a b : Z) :
  safe a → safe b → safe (a + b) →
  SF64add (Number.SF_of_Z a) (Number.SF_of_Z b) = Number.SF_of_Z (a + b).
Proof.
  intros Ha Hb Hab.
  destruct (decide (a = 0)) as [->|Ha0].
  { destruct (decide (b = 0)) as [->|Hb0]; [reflexivity|].
    by rewrite Z.add_0_l, (SF_of_Z_nonzero b). }
  destruct (decide (b = 0)) as [->|Hb0].
  { by rewrite Z.add_0_r, (SF_of_Z_nonzero a). }
  rewrite (SF_of_Z_nonzero a), (SF_of_Z_nonzero b) by done.
  unfold safe in Ha, Hb.
  pose proof (log2_safe (Z.abs a)) as Hla. pose proof (log2_safe (Z.abs b)) as Hlb.
  unfold SF64add, SFadd, normal.
  remember (Z.min (Z.log2 (Z.abs a) - 52) (Z.log2 (Z.abs b) - 52)) as ez eqn:Hez.
  rewrite !normal_mantissa by lia.
  replace (cond_Zopp (a <? 0) (Z.abs a * 2 ^ (- ez))
           + cond_Zopp (b <? 0) (Z.abs b * 2 ^ (- ez)))
    with ((a + b) * 2 ^ (- ez)).
  2:{ rewrite <- (cond_Zopp_abs a) at 1. rewrite <- (cond_Zopp_abs b) at 1.
      destruct (a <? 0), (b <? 0); cbn [cond_Zopp]; ring. }
  assert (0 < 2 ^ (- ez)) as Hpow by (apply Z.pow_pos_nonneg; lia).
  destruct (decide (a + b = 0)) as [->|Hab0]; [reflexivity|].
  rewrite (SF_of_Z_nonzero (a + b)) by done. unfold safe in Hab.
  destruct ((a + b) * 2 ^ (- ez)) as [|M|M] eqn:HM; cbn [binary_normalize].
  - apply Z.eq_mul_0 in HM. lia.
  - assert (0 < a + b) by nia.
    replace ez with (- - ez) by lia.
    replace (a + b <? 0) with false by (symmetry; apply Z.ltb_ge; lia).
    apply binary_round_exact; [lia|lia|].
    rewrite Z.abs_eq by lia. done.
  - assert (a + b < 0) by nia.
    replace ez with (- - ez) by lia.
    replace (a + b <? 0) with true by (symmetry; apply Z.ltb_lt; lia).
    apply binary_round_exact; [lia|lia|].
    rewrite Z.abs_neq by lia. lia.
Qed.

Lemma add_exact (a b : Z) :
  safe a → safe b → safe (a + b) →
  (Number.of_Z a + Number.of_Z b)%float = Number.of_Z (a + b).
Proof.
  intros Ha Hb Hab.
  rewrite <- (SF2Prim_Prim2SF (_ + _)%float), add_spec, !Prim2SF_of_Z by done.
  by rewrite SFadd_exact.
Qed.

(** A number made from a safe integer holds that integer. *)
Lemma to_Z_of_Z (n : Z) : safe n → Number.to_Z (Number.of_Z n) = Some n.
Proof.
  intros Hn. unfold Number.to_Z. rewrite Prim2SF_of_Z by done.
  destruct (decide (n = 0)) as [->|Hn0]; [reflexivity|].
  rewrite SF_of_Z_nonzero by done. unfold safe in Hn.
  pose proof (log2_safe (Z.abs n)) as Hlog.
  assert (0 < 2 ^ (52 - Z.log2 (Z.abs n))) as Hpow by (apply Z.pow_pos_nonneg; lia).
  unfold normal. cbv zeta.
  rewrite normal_mantissa_pos, Z.max_l, Z.max_r by lia.
  replace (- (Z.log2 (Z.abs n) - 52)) with (52 - Z.log2 (Z.abs n)) by lia.
  rewrite Z.pow_0_r, Z.mul_1_r, Z.mod_mul, Z.div_mul by lia.
  cbn [Z.eqb]. by rewrite cond_Zopp_abs.
Qed.

Context {A : Type} (f : A → Z).

Lemma sum_abs_nonneg (l : list A) : 0 ≤ foldr (fun r sum => Z.abs (f r) + sum) 0 l.
Proof. induction l; cbn [foldr]; lia. Qed.

Lemma abs_sum_le (l : list A) :
  Z.abs (foldr Z.add 0 (f <$> l)) ≤ foldr (fun r sum => Z.abs (f r) + sum) 0 l.
Proof. induction l; [done|]. rewrite fmap_cons. cbn [foldr]. lia. Qed.

(** The running total of [reduce] is the sum of the fields while the
    magnitudes of the fields add up to a safe integer. *)
Lemma reduce_exact (l : list A) (start : Z) :
  Z.abs start + foldr (fun r sum => Z.abs (f r) + sum) 0 l < 2 ^ 53 →
  fold_left (fun sum r => (sum + Number.of_Z (f r))%float) l (Number.of_Z start)
  = Number.of_Z (start + foldr Z.add 0 (f <$> l)).
Proof.
  revert start. induction l as [|r l IH]; intros start Hsafe.
  - cbn [fold_left fmap list_fmap foldr]. by rewrite Z.add_0_r.
  - rewrite fmap_cons. cbn [fold_left foldr] in *.
    pose proof (sum_abs_nonneg l).
    rewrite add_exact by (unfold safe; lia).
    rewrite IH by lia. f_equal. lia.
Qed.

Lemma foldr_add_snoc (l : list A) (x : A) :
  foldr Z.add 0 (f <$> l ++ [x]) = foldr Z.add 0 (f <$> l) + f x.
Proof.
  induction l as [|a l IH]; [simpl; lia|].
  rewrite <- app_comm_cons, !fmap_cons. cbn [foldr]. rewrite IH. lia.
Qed.

End NumberFacts.

Section TotalsFacts.
Local Open Scope Z_scope.

Lemma safe_totals_split (records : list UsageRecord.t) :
  foldr (fun r sum => Z.abs (UsageRecord.inputTokens r)
                      + Z.abs (UsageRecord.outputTokens r) + sum) 0 records
  = foldr (fun r sum => Z.abs (UsageRecord.inputTokens r) + sum) 0 records
    + foldr (fun r sum => Z.abs (UsageRecord.outputTokens r) + sum) 0 records.
Proof. induction records; cbn [foldr]; lia. Qed.

(** With safe totals the three sums of [getSessionUsage] are exact. *)
Lemma totals_exact (records : list UsageRecord.t) :
  safe_totals records →
  let totalIn := foldr Z.add 0 (UsageRecord.inputTokens <$> records) in
  let totalOut := foldr Z.add 0 (UsageRecord.outputTokens <$> records) in
  fold_left (fun sum r => (sum + Number.of_Z (UsageRecord.inputTokens r))%float)
    records 0%float = Number.of_Z totalIn
  ∧ fold_left (fun sum r => (sum + Number.of_Z (UsageRecord.outputTokens r))%float)
      records 0%float = Number.of_Z totalOut
  ∧ (Number.of_Z totalIn + Number.of_Z totalOut)%float = Number.of_Z (totalIn + totalOut)
  ∧ safe totalIn ∧ safe totalOut ∧ safe (totalIn + totalOut).
Proof.
  intros Hsafe totalIn totalOut.
  unfold safe_totals in Hsafe. rewrite safe_totals_split in Hsafe.
  pose proof (sum_abs_nonneg UsageRecord.inputTokens records).
  pose proof (sum_abs_nonneg UsageRecord.outputTokens records).
  pose proof (abs_sum_le UsageRecord.inputTokens records).
  pose proof (abs_sum_le UsageRecord.outputTokens records).
  assert (safe totalIn ∧ safe totalOut ∧ safe (totalIn + totalOut)) as (Hin & Hout & Hsum).
  { unfold safe, totalIn, totalOut. lia. }
  change 0%float with (Number.of_Z 0).
  rewrite !reduce_exact, !Z.add_0_l by lia.
  by rewrite add_exact.
Qed.

(** [parseFloat(x.toFixed(6))] on some numbers: a tie goes away from zero,
    a sum of products loses its last digits, a negative number too small
    for six decimals gives [-0], and from [10^21] on nothing changes. *)
Lemma toFixed6_samples :
  UsageService.toFixed6 0.0078125 = 0.007813%float
  ∧ UsageService.toFixed6 (-0.0078125) = (-0.007813)%float
  ∧ UsageService.toFixed6 0.0054600000000000004 = 0.00546%float
  ∧ UsageService.toFixed6 6000000000.0000095 = 6000000000.00001%float
  ∧ UsageService.toFixed6 0.1234564999 = 0.123456%float
  ∧ UsageService.toFixed6 1.5 = 1.5%float
  ∧ UsageService.toFixed6 (-0.0000001) = (-0)%float
  ∧ UsageService.toFixed6 (-0) = 0%float
  ∧ UsageService.toFixed6 1e21 = 1e21%float
  ∧ UsageService.toFixed6 123456789012345678901234.5 = 123456789012345678901234.5%float
  ∧ UsageService.toFixed6 infinity = infinity
  ∧ UsageService.toFixed6 nan = nan.
Proof. repeat split; vm_compute; reflexivity. Qed.

End TotalsFacts.


(** ** The orchestrator: request shaping and response extraction *)

Section FormatFacts.
Import AIService.

(** The turn one message becomes. *)
Lemma formatMessagesForClaude_cons (msg : Message.t) (messages : list Message.t) :
  formatMessagesForClaude (msg :: messages)
  = hd (MessageParam.mk user "") (formatMessagesForClaude [msg])
    :: formatMessagesForClaude messages.
Proof. reflexivity. Qed.

Lemma formatMessagesForClaude_length (messages : list Message.t) :
  length (formatMessagesForClaude messages) = length messages.
Proof. apply length_map. Qed.

Lemma formatMessagesForClaude_lookup (messages : list Message.t) (i : nat)
    (msg : Message.t) :
  messages !! i = Some msg →
  formatMessagesForClaude messages !! i
  = Some (hd (MessageParam.mk user "") (formatMessagesForClaude [msg])).
Proof.
  revert i. induction messages as [|m messages IH]; intros [|i] Hi;
    try discriminate.
  - by injection Hi as ->.
  - rewrite formatMessagesForClaude_cons. simpl in *. by apply IH.
Qed.

Lemma formatMessagesForClaude_app (l1 l2 : list Message.t) :
  formatMessagesForClaude (l1 ++ l2)
  = formatMessagesForClaude l1 ++ formatMessagesForClaude l2.
Proof. apply map_app. Qed.

Lemma extractText_first (before after : list ContentBlock) (text : string) :
  no_text before →
  extractText (before ++ TextBlock text :: after) = text.
Proof.
  unfold extractText. induction 1 as [|block before Hblock _ IH]; simpl.
  - done.
  - by rewrite bool_decide_eq_false_2.
Qed.

Lemma extractText_none (content : list ContentBlock) :
  no_text content → extractText content = "".
Proof.
  unfold extractText. induction 1 as [|block content Hblock _ IH]; simpl.
  - done.
  - by rewrite bool_decide_eq_false_2.
Qed.

End FormatFacts.

(** C7: the request has one turn per message, at the same position. The
    turn of a message of the model has the role [assistant] and the
    message's content; the turn of a message of partner A or partner B has
    the role [user] and the content after the label "Partner A: " or
    "Partner B: ". *)
Theorem formatMessagesForClaude_turns (messages : list Message.t) (i : nat)
    (msg : Message.t) :
  messages !! i = Some msg →
  length (AIService.formatMessagesForClaude messages) = length messages
  ∧ ∃ turn,
      AIService.formatMessagesForClaude messages !! i = Some turn
      ∧ (Message.author msg = ai →
         turn = MessageParam.mk assistant (Message.content msg))
      ∧ (Message.author msg = partner_a →
         turn = MessageParam.mk user ("Partner A: " +:+ Message.content msg))
      ∧ (Message.author msg = partner_b →
         turn = MessageParam.mk user ("Partner B: " +:+ Message.content msg)).
Proof.
  intros Hi. split; [apply formatMessagesForClaude_length|].
  eexists. split; [by apply formatMessagesForClaude_lookup|].
  simpl. repeat split; intros ->; reflexivity.
Qed.

(** C10: a message whose author is neither the model nor partner A, the
    reserved [system_summary] among them, becomes a [user] turn with the
    label "Partner B: " before its content. *)
Theorem formatMessagesForClaude_summary_as_partner_b (messages : list Message.t)
    (i : nat) (msg : Message.t) :
  messages !! i = Some msg →
  (Message.author msg = system_summary →
   AIService.formatMessagesForClaude messages !! i
   = Some (MessageParam.mk user ("Partner B: " +:+ Message.content msg)))
  ∧ (Message.author msg ≠ ai → Message.author msg ≠ partner_a →
     AIService.formatMessagesForClaude messages !! i
     = Some (MessageParam.mk user ("Partner B: " +:+ Message.content msg))).
Proof.
  intros Hi. rewrite (formatMessagesForClaude_lookup _ _ _ Hi). simpl. split.
  - intros ->. reflexivity.
  - intros Hai Ha. by rewrite !decide_False.
Qed.

(** ** The orchestrator: one turn *)

Lemma same_stores_refl w : same_stores w w.
Proof. by repeat split. Qed.

Lemma same_stores_trans w1 w2 w3 :
  same_stores w1 w2 → same_stores w2 w3 → same_stores w1 w3.
Proof.
  unfold same_stores. intros (?&?&?&?&?&?&?) (?&?&?&?&?&?&?).
  repeat split; congruence.
Qed.

Lemma same_stores_wf w w' : same_stores w w' → store_wf w → store_wf w'.
Proof. unfold store_wf. intros (Hs & Hm & _) Hwf. by rewrite Hs, Hm. Qed.

Section TurnFacts.
Import AIService.

Lemma enter_eq (sessionId : string) (w : World) :
  enter sessionId w =
    (AwaitModel (promises w)
       (formatMessagesForClaude (default [] (messages w !! sessionId))),
     set_sessionLocks (insert sessionId (promises w)) (set_promises S w)).
Proof. reflexivity. Qed.

Lemma getAIResponse_stores (sessionId : string) (w : World) :
  same_stores w (getAIResponse sessionId w).
Proof.
  unfold getAIResponse. destruct (sessionLocks w !! sessionId).
  - by repeat split.
  - rewrite enter_eq. by repeat split.
Qed.

(** *** Resuming the calls that wait for a lock *)

Lemma resume_cases (call : nat) (w : World) :
  (resume call w = w)
  ∨ (∃ sessionId existingLock,
       tasks w !! call = Some (Task.mk sessionId (AwaitLock existingLock))
       ∧ existingLock ∈ resolved w
       ∧ resume call w =
           set_tasks (<[call := Task.mk sessionId (fst (enter sessionId w))]>)
                     (snd (enter sessionId w))).
Proof.
  unfold resume.
  destruct (tasks w !! call) as [[sessionId [existingLock| |]]|] eqn:Ht; auto.
  destruct (decide (existingLock ∈ resolved w)); auto.
  right. exists sessionId, existingLock. by rewrite enter_eq.
Qed.

Lemma resume_stores (call : nat) (w : World) : same_stores w (resume call w).
Proof.
  destruct (resume_cases call w) as [->|(sid & p & _ & _ & ->)].
  - apply same_stores_refl.
  - by repeat split.
Qed.

Lemma resume_resolved (call : nat) (w : World) :
  resolved (resume call w) = resolved w.
Proof. by destruct (resume_cases call w) as [->|(sid & p & _ & _ & ->)]. Qed.

Lemma resume_length (call : nat) (w : World) :
  length (tasks (resume call w)) = length (tasks w).
Proof.
  destruct (resume_cases call w) as [->|(sid & p & _ & _ & ->)]; [done|].
  simpl. apply length_insert.
Qed.

(** A call that does not wait stays as it is. *)
Lemma resume_keeps (call other : nat) (w : World) (t : Task.t) :
  tasks w !! other = Some t → ¬ waiting t →
  tasks (resume call w) !! other = Some t.
Proof.
  intros Ht Hnw.
  destruct (resume_cases call w) as [->|(sid & p & Hc & _ & ->)]; [done|].
  simpl. destruct (decide (call = other)) as [->|Hne].
  - rewrite Ht in Hc. injection Hc as ->. destruct Hnw. by exists p.
  - by rewrite list_lookup_insert_ne.
Qed.

Lemma resume_awake_self (call : nat) (w : World) : awake (resume call w) call.
Proof.
  intros t lock Ht Hwait.
  destruct (resume_cases call w) as [Heq|(sid & p & Hc & Hp & Heq)];
    rewrite Heq in *.
  - unfold resume in Heq. rewrite Ht in Heq. destruct t as [sid pc].
    unfold waits_for in Hwait. simpl in Hwait. subst pc.
    destruct (decide (lock ∈ resolved w)) as [Hin|]; [|done].
    rewrite enter_eq in Heq. apply (f_equal tasks) in Heq. simpl in Heq.
    apply (f_equal (fun l => l !! call)) in Heq.
    rewrite list_lookup_insert_eq in Heq by (by eapply lookup_lt_Some).
    rewrite Ht in Heq. discriminate.
  - simpl in Ht. rewrite list_lookup_insert_eq in Ht by (by eapply lookup_lt_Some).
    injection Ht as <-. discriminate.
Qed.

Lemma resume_awake_other (call other : nat) (w : World) :
  awake w other → awake (resume call w) other.
Proof.
  intros Haw t lock Ht Hwait. rewrite resume_resolved.
  destruct (resume_cases call w) as [Heq|(sid & p & Hc & Hp & Heq)];
    rewrite Heq in *; [by eapply Haw|].
  simpl in Ht. destruct (decide (call = other)) as [->|Hne].
  - rewrite list_lookup_insert_eq in Ht by (by eapply lookup_lt_Some).
    injection Ht as <-. discriminate.
  - rewrite list_lookup_insert_ne in Ht by done. by eapply Haw.
Qed.

Lemma resume_all_stores (calls : list nat) (w : World) :
  same_stores w (resume_all calls w).
Proof.
  revert w. induction calls as [|call calls IH]; intros w; simpl.
  - apply same_stores_refl.
  - eapply same_stores_trans; [apply resume_stores | apply IH].
Qed.

Lemma resume_all_resolved (calls : list nat) (w : World) :
  resolved (resume_all calls w) = resolved w.
Proof.
  revert w. induction calls as [|call calls IH]; intros w; simpl; [done|].
  by rewrite IH, resume_resolved.
Qed.

Lemma resume_all_length (calls : list nat) (w : World) :
  length (tasks (resume_all calls w)) = length (tasks w).
Proof.
  revert w. induction calls as [|call calls IH]; intros w; simpl; [done|].
  by rewrite IH, resume_length.
Qed.

Lemma resume_all_keeps (calls : list nat) (other : nat) (w : World) (t : Task.t) :
  tasks w !! other = Some t → ¬ waiting t →
  tasks (resume_all calls w) !! other = Some t.
Proof.
  revert w. induction calls as [|call calls IH]; intros w Ht Hnw; simpl; [done|].
  apply IH; [|done]. by apply resume_keeps.
Qed.

Lemma resume_all_awake_other (calls : list nat) (other : nat) (w : World) :
  awake w other → awake (resume_all calls w) other.
Proof.
  revert w. induction calls as [|call calls IH]; intros w Haw; simpl; [done|].
  by apply IH, resume_awake_other.
Qed.

Lemma resume_all_awake (calls : list nat) (w : World) (call : nat) :
  call ∈ calls → awake (resume_all calls w) call.
Proof.
  revert w. induction calls as [|c calls IH]; intros w Hin.
  - by apply elem_of_nil in Hin.
  - simpl. apply elem_of_cons in Hin as [->|Hin].
    + apply resume_all_awake_other, resume_awake_self.
    + by apply IH.
Qed.

(** After the microtasks every call that waits, waits for a lock that is
    not resolved. *)
Lemma run_microtasks_awake (w : World) (call : nat) :
  awake (run_microtasks w) call.
Proof.
  destruct (decide (call < length (tasks w))) as [Hlt|Hge].
  - apply (resume_all_awake (seq 0 (length (tasks w))) w call).
    apply elem_of_seq. lia.
  - intros t lock Ht _. apply lookup_lt_Some in Ht.
    unfold run_microtasks in Ht.
    pose proof (resume_all_length (seq 0 (length (tasks w))) w) as Hlen.
    unfold resume_all in Hlen. rewrite Hlen in Ht. lia.
Qed.

Lemma run_microtasks_stores (w : World) : same_stores w (run_microtasks w).
Proof. apply resume_all_stores. Qed.

Lemma run_microtasks_resolved (w : World) :
  resolved (run_microtasks w) = resolved w.
Proof. apply resume_all_resolved. Qed.

Lemma run_microtasks_keeps (other : nat) (w : World) (t : Task.t) :
  tasks w !! other = Some t → ¬ waiting t →
  tasks (run_microtasks w) !! other = Some t.
Proof. apply resume_all_keeps. Qed.

End TurnFacts.

Section SettleFacts.
Import AIService.
Variables (w : World) (call : nat) (sessionId : string) (lock : Promise)
          (request : list MessageParam.t).
Hypothesis Hcall :
  tasks w !! call = Some (Task.mk sessionId (AwaitModel lock request)).

Lemma settle_failed (e : Exn) :
  settle call (Throw e) w =
    set_tasks (<[call := Task.mk sessionId (Settled (Throw e))]>)
              (release lock sessionId w).
Proof using Hcall. unfold settle. by rewrite Hcall. Qed.

(** The world after [complete]: one usage record more, one message of the
    model more. *)
Lemma complete_result (response : ApiMessage.t) :
  store_wf w →
  let text := extractText (ApiMessage.content response) in
  let input_tokens := ApiUsage.input_tokens (ApiMessage.usage response) in
  let output_tokens := ApiUsage.output_tokens (ApiMessage.usage response) in
  ∃ w' message,
    complete sessionId response w
      = (Return (AIResponse.mk text input_tokens output_tokens), w')
    ∧ Message.sessionId message = sessionId
    ∧ Message.author message = ai
    ∧ Message.content message = text
    ∧ messages w' =
        <[sessionId := default [] (messages w !! sessionId) ++ [message]]> (messages w)
    ∧ usageStore w' =
        <[sessionId := default [] (usageStore w !! sessionId)
                       ++ [UsageRecord.mk sessionId input_tokens output_tokens
                             AI_MODEL (clock w (clock_calls w))]]> (usageStore w)
    ∧ same_runtime w w'.
Proof.
  intros Hwf text input_tokens output_tokens.
  unfold complete, bind. fold text input_tokens output_tokens.
  rewrite recordUsage_eq.
  set (w1 := set_usageStore _ _).
  assert (store_wf w1) as Hwf1 by exact Hwf.
  destruct (saveMessage_result sessionId ai text None w1 Hwf1)
    as (w' & -> & Hm & Hs & Hu & _ & _ & Hrt).
  eexists w', _. split; [reflexivity|]. repeat split; try done.
  all: by destruct Hrt as (?&?&?&?&?&?).
Qed.

Lemma settle_replied (response : ApiMessage.t) (w' : World) (result : AIResponse.t) :
  complete sessionId response w = (Return result, w') →
  settle call (Return response) w =
    set_tasks (<[call := Task.mk sessionId (Settled (Return result))]>)
              (release lock sessionId w').
Proof using Hcall.
  intros Hc. unfold settle, try_finally. by rewrite Hcall, Hc.
Qed.

End SettleFacts.

(** *** The stores of a reachable world *)

Lemma same_stores_ids_generated w w' :
  same_stores w w' → ids_generated w → ids_generated w'.
Proof. intros (_ & Hm & _ & Hu & _ & Hs & _). by apply ids_generated_ext. Qed.

Lemma complete_invariants (sessionId : string) (response : ApiMessage.t) (w : World) :
  store_wf w → ids_generated w →
  store_wf (snd (AIService.complete sessionId response w))
  ∧ ids_generated (snd (AIService.complete sessionId response w)).
Proof.
  intros Hwf Hgen. unfold AIService.complete, bind. rewrite recordUsage_eq.
  set (w1 := set_usageStore _ _).
  assert (store_wf w1) as Hwf1 by exact Hwf.
  assert (ids_generated w1) as Hgen1 by exact Hgen.
  pose proof (saveMessage_wf sessionId ai
                (AIService.extractText (ApiMessage.content response)) None w1 Hwf1).
  pose proof (saveMessage_ids_generated sessionId ai
                (AIService.extractText (ApiMessage.content response)) None w1 Hwf1 Hgen1).
  destruct (MessageService.saveMessage _ _ _ _ w1) as [[message|e] w2]; by split.
Qed.

Lemma settle_invariants (call : nat) (reply : Outcome ApiMessage.t) (w : World) :
  store_wf w → ids_generated w →
  store_wf (AIService.settle call reply w)
  ∧ ids_generated (AIService.settle call reply w).
Proof.
  intros Hwf Hgen. unfold AIService.settle.
  destruct (tasks w !! call) as [[sessionId [existingLock|lock request|result]]|];
    try by split.
  unfold try_finally. destruct reply as [response|e].
  - destruct (complete_invariants sessionId response w Hwf Hgen) as [Hwf' Hgen'].
    destruct (AIService.complete sessionId response w) as [result w']. by split.
  - by split.
Qed.

Lemma handle_invariants (ev : AIService.Event) (w : World) :
  store_wf w → ids_generated w →
  store_wf (AIService.handle ev w) ∧ ids_generated (AIService.handle ev w).
Proof.
  intros Hwf Hgen. unfold AIService.handle.
  set (w1 := match ev with
             | AIService.Call _ => _ | AIService.ModelReplied _ _ => _
             | AIService.ModelFailed _ _ => _ end).
  assert (store_wf w1 ∧ ids_generated w1) as [Hwf1 Hgen1].
  { subst w1. destruct ev as [sessionId|call response|call e].
    - pose proof (getAIResponse_stores sessionId w) as Hst.
      split; [by eapply same_stores_wf | by eapply same_stores_ids_generated].
    - by apply settle_invariants.
    - by apply settle_invariants. }
  pose proof (run_microtasks_stores w1) as Hst.
  split; [by eapply same_stores_wf | by eapply same_stores_ids_generated].
Qed.

Lemma post_message_invariants (req : Routes.SendMessageRequest.t) (w : World) :
  store_wf w → ids_generated w →
  store_wf (Routes.post_message req w) ∧ ids_generated (Routes.post_message req w).
Proof.
  intros Hwf Hgen. unfold Routes.post_message.
  repeat case_bool_decide; try by split.
  pose proof (saveMessage_wf (Routes.SendMessageRequest.sessionId req)
                (Routes.SendMessageRequest.author req)
                (Routes.SendMessageRequest.content req)
                (Routes.SendMessageRequest.topic req) w Hwf) as Hwf'.
  pose proof (saveMessage_ids_generated (Routes.SendMessageRequest.sessionId req)
                (Routes.SendMessageRequest.author req)
                (Routes.SendMessageRequest.content req)
                (Routes.SendMessageRequest.topic req) w Hwf Hgen) as Hgen'.
  destruct (MessageService.saveMessage _ _ _ _ w) as [[message|e] w']; [|by split].
  by apply handle_invariants.
Qed.

(** In every reachable world [sessions] and [messages] hold the same ids,
    and every stored id came from [uuidv4()]. *)
Lemma reachable_invariants (w : World) :
  reachable w → store_wf w ∧ ids_generated w.
Proof.
  induction 1 as [uuids dates|req w _ [Hwf Hgen]|ev w _ [Hwf Hgen]].
  - split; [apply store_wf_boot | apply ids_generated_boot].
  - by apply post_message_invariants.
  - by apply handle_invariants.
Qed.

(** C4: a call of [getAIResponse] writes nothing to the services when it
    arrives; and when the model call of a call in flight fails, handling
    the failure leaves sessions, messages and usage records as they were,
    so history and usage records of the session read the same as before.
    The call is settled with the error. Its lock is released: the
    [finally] leaves no entry for the session in [sessionLocks], the
    lock's promise is resolved, and once the microtasks have run no call
    waits for it any more. *)
Theorem model_failure_leaves_no_trace (before : World) (arriving : string)
    (w : World) (call : nat) (sessionId : string) (lock : Promise)
    (request : list MessageParam.t) (e : Exn) :
  tasks w !! call = Some (Task.mk sessionId (AwaitModel lock request)) →
  let w' := AIService.handle (AIService.ModelFailed call e) w in
  same_stores before (AIService.handle (AIService.Call arriving) before)
  ∧ same_stores w w'
  ∧ fst (MessageService.getConversationHistory sessionId w')
      = fst (MessageService.getConversationHistory sessionId w)
  ∧ fst (UsageService.getSessionUsageRecords sessionId w')
      = fst (UsageService.getSessionUsageRecords sessionId w)
  ∧ tasks w' !! call = Some (Task.mk sessionId (Settled (Throw e)))
  ∧ sessionLocks (AIService.settle call (Throw e) w) !! sessionId = None
  ∧ lock ∈ resolved w'
  ∧ (∀ other t, tasks w' !! other = Some t → ¬ waits_for lock t).
Proof.
  intros Hcall w'.
  assert (same_stores w w') as Hst.
  { subst w'. unfold AIService.handle.
    eapply same_stores_trans; [|apply run_microtasks_stores].
    rewrite (settle_failed _ _ _ _ _ Hcall). by repeat split. }
  assert (lock ∈ resolved w') as Hres.
  { subst w'. unfold AIService.handle.
    rewrite run_microtasks_resolved, (settle_failed _ _ _ _ _ Hcall). simpl.
    apply elem_of_union_l, elem_of_singleton. reflexivity. }
  split; [|split; [exact Hst|]].
  { unfold AIService.handle.
    eapply same_stores_trans; [apply getAIResponse_stores|apply run_microtasks_stores]. }
  destruct Hst as (_ & Hm & Hu & _).
  unfold MessageService.getConversationHistory, SessionStore.getMessages,
    UsageService.getSessionUsageRecords, bind, gets, ret. simpl.
  rewrite Hm, Hu. repeat split; try done.
  - subst w'. unfold AIService.handle. apply run_microtasks_keeps.
    + rewrite (settle_failed _ _ _ _ _ Hcall). simpl.
      apply list_lookup_insert_eq. by eapply lookup_lt_Some.
    + intros [p Hp]. discriminate.
  - rewrite (settle_failed _ _ _ _ _ Hcall). simpl. apply lookup_delete_eq.
  - intros other t Ht Hwait.
    by apply (run_microtasks_awake _ other t lock Ht Hwait).
Qed.

(** C8: when the model call of a call in flight returns a response, on a
    store where [sessions] and [messages] hold the same ids, the reply
    text is the text of the first block of type "text" and the empty
    string when the response has no such block. In both cases the call is
    settled with a result and no error, the result holding that text and
    the reported token counts; the session's history is the old one with
    one message of the model at its end whose content is that text, and
    its usage records are the old ones with one record of the reported
    counts at the end. *)
Theorem reply_text_is_first_text_block (w : World) (call : nat)
    (sessionId : string) (lock : Promise) (request : list MessageParam.t)
    (response : ApiMessage.t) :
  store_wf w →
  tasks w !! call = Some (Task.mk sessionId (AwaitModel lock request)) →
  let content := ApiMessage.content response in
  let text := AIService.extractText content in
  let input_tokens := ApiUsage.input_tokens (ApiMessage.usage response) in
  let output_tokens := ApiUsage.output_tokens (ApiMessage.usage response) in
  let w' := AIService.handle (AIService.ModelReplied call response) w in
  (∀ skipped first rest,
     content = skipped ++ TextBlock first :: rest → no_text skipped → text = first)
  ∧ (no_text content → text = "")
  ∧ tasks w' !! call =
      Some (Task.mk sessionId
              (Settled (Return (AIResponse.mk text input_tokens output_tokens))))
  ∧ (∃ message,
       Message.sessionId message = sessionId
       ∧ Message.author message = ai
       ∧ Message.content message = text
       ∧ fst (MessageService.getConversationHistory sessionId w')
         = Return (default [] (messages w !! sessionId) ++ [message]))
  ∧ (∃ record,
       UsageRecord.inputTokens record = input_tokens
       ∧ UsageRecord.outputTokens record = output_tokens
       ∧ fst (UsageService.getSessionUsageRecords sessionId w')
         = Return (default [] (usageStore w !! sessionId) ++ [record])).
Proof.
  intros Hwf Hcall content text input_tokens output_tokens w'.
  destruct (complete_result w sessionId response Hwf)
    as (w2 & message & Hc & Hsid & Hauthor & Hcontent & Hm & Hu & Hrt).
  assert (tasks w2 = tasks w) as Htasks by (by destruct Hrt as (?&?&?&?&?)).
  pose proof (settle_replied _ _ _ _ _ Hcall _ _ _ Hc) as Hsettle.
  assert (same_stores (AIService.settle call (Return response) w) w') as Hst
    by apply run_microtasks_stores.
  destruct Hst as (_ & Hm' & Hu' & _). rewrite Hsettle in Hm', Hu'.
  simpl in Hm', Hu'.
  split; [|split; [|split; [|split]]].
  - intros skipped first rest -> Hskip. by apply extractText_first.
  - apply extractText_none.
  - subst w'. unfold AIService.handle. apply run_microtasks_keeps.
    + rewrite Hsettle. simpl. rewrite Htasks.
      apply list_lookup_insert_eq. by eapply lookup_lt_Some.
    + intros [p Hp]. discriminate.
  - exists message. repeat split; try done.
    unfold MessageService.getConversationHistory, SessionStore.getMessages,
      bind, gets, ret. simpl.
    by rewrite Hm', Hm, lookup_insert_eq.
  - eexists. split; [|split]; [| |
      unfold UsageService.getSessionUsageRecords, gets; simpl;
      by rewrite Hu', Hu, lookup_insert_eq]; reflexivity.
Qed.

(** ** The statements on the scenarios *)

(** C1: three requests for session "s1", the second and third arriving
    while the turn of the first waits for the model. When the model
    answers the first, the second and the third both pass the lock in the
    same round of microtasks: both are in flight at once, and both sent
    the same transcript. When the second finishes, its [finally] removes
    the entry of [sessionLocks] that the third had stored, so a fourth
    request finds no lock and joins the third. *)
Theorem two_turns_past_the_lock :
  AIService.holders "s1" ex_three_posts = [0]
  ∧ tasks ex_three_posts !! 1 = Some (Task.mk "s1" (AwaitLock 0))
  ∧ tasks ex_three_posts !! 2 = Some (Task.mk "s1" (AwaitLock 0))
  ∧ AIService.holders "s1" ex_first_reply = [1; 2]
  ∧ tasks ex_first_reply !! 1 = Some (Task.mk "s1" (AwaitModel 1 ex_transcript))
  ∧ tasks ex_first_reply !! 2 = Some (Task.mk "s1" (AwaitModel 2 ex_transcript))
  ∧ AIService.holders "s1" ex_second_reply = [2]
  ∧ sessionLocks ex_second_reply !! "s1" = None
  ∧ AIService.holders "s1" ex_fourth_post = [2; 3].
Proof. vm_compute. repeat split; reflexivity. Qed.

(** C2 fails on the code: a second [createSession] for the id "s1", which
    has a session and one message, returns a session and throws nothing,
    and the message sequence of "s1" is empty afterwards. *)
Lemma createSession_twice_succeeds :
  is_Some (sessions ex_stored !! "s1")
  ∧ fst (SessionStore.getMessages "s1" ex_stored) = Return [ex_message]
  ∧ fst (SessionStore.createSession "s1" "Moving" ex_stored)
    = Return (Session.mk "s1" "Moving" 1770000000001)
  ∧ fst (SessionStore.getMessages "s1"
           (snd (SessionStore.createSession "s1" "Moving" ex_stored)))
    = Return [].
Proof. split; [by eexists|]. vm_compute. repeat split; reflexivity. Qed.

(** C3 fails on the code: [recordUsage] with a negative input token count
    returns, and the record is stored. *)
Lemma recordUsage_accepts_negative :
  (-5 < 0)%Z
  ∧ fst (UsageService.recordUsage "s1" (-5) 340 "model-x" ex_boot) = Return tt
  ∧ fst (UsageService.getSessionUsageRecords "s1"
           (snd (UsageService.recordUsage "s1" (-5) 340 "model-x" ex_boot)))
    = Return [UsageRecord.mk "s1" (-5) 340 "model-x" 1770000000000].
Proof. split; [lia|]. vm_compute. split; reflexivity. Qed.

(** Call 0 fails while calls 1 and 2 wait for its lock: the stores are as
    before, the call holds the error, its lock is resolved. *)
Lemma model_failure_leaves_no_trace_witness :
  let failed :=
    AIService.handle (AIService.ModelFailed 0 (Error "overloaded")) ex_three_posts in
  same_stores ex_three_posts failed
  ∧ tasks failed !! 0 = Some (Task.mk "s1" (Settled (Throw (Error "overloaded"))))
  ∧ 0 ∈ resolved failed.
Proof.
  destruct (model_failure_leaves_no_trace ex_boot "s1" ex_three_posts 0 "s1" 0
              [MessageParam.mk user "Partner A: Should we move?"]
              (Error "overloaded"))
    as (_ & Hstores & _ & _ & Hcall & _ & Hresolved & _).
  - vm_compute. reflexivity.
  - exact (conj Hstores (conj Hcall Hresolved)).
Defined.

Lemma ex_three_posts_reachable : reachable ex_three_posts.
Proof.
  unfold ex_three_posts, ex_one_post, ex_post.
  do 3 apply reachable_post. apply reachable_boot.
Qed.

Lemma ex_fourth_post_reachable : reachable ex_fourth_post.
Proof.
  unfold ex_fourth_post, ex_second_reply, ex_first_reply, ex_post.
  apply reachable_post. do 2 apply reachable_event.
  apply ex_three_posts_reachable.
Qed.

(** A fourth message for the session "s1" with its three messages: it gets
    the id "3", which none of the three has. *)
Lemma saveMessage_spec_witness :
  ∃ message w',
    MessageService.saveMessage "s1" partner_b "And the children?" None ex_three_posts
      = (Return message, w')
    ∧ Message.id message = "3"
    ∧ length (default [] (messages ex_three_posts !! "s1")) = 3
    ∧ fst (MessageService.getConversationHistory "s1" w')
      = Return (default [] (messages ex_three_posts !! "s1") ++ [message])
    ∧ (∀ stored old,
         messages ex_three_posts !! "s1" = Some stored → old ∈ stored →
         Message.id old ≠ Message.id message).
Proof.
  destruct (reachable_invariants _ ex_three_posts_reachable) as [Hwf Hgen].
  destruct (saveMessage_spec ex_three_posts "s1" partner_b "And the children?" None Hwf)
    as (message & w' & Heq & Hid & _ & _ & _ & _ & _ & _ & Hhistory & _ & _ & _ & _ & Hnew).
  destruct (Hnew Hgen) as [_ Hfresh].
  exists message, w'.
  split; [exact Heq|].
  split; [rewrite Hid; vm_compute; reflexivity|].
  split; [vm_compute; reflexivity|].
  split; [exact Hhistory|].
  apply Hfresh. change (Inj (=) (=) ex_uuids). exact pretty_nat_inj.
Defined.

(** The turn of a message of partner A. *)
Lemma formatMessagesForClaude_turns_witness :
  ∃ turn,
    AIService.formatMessagesForClaude
      [ex_message; Message.mk "m2" "s1" ai "Tell me more" 1770000000002] !! 0
    = Some turn
    ∧ (Message.author ex_message = partner_a →
       turn = MessageParam.mk user "Partner A: Should we move?").
Proof.
  destruct (formatMessagesForClaude_turns
              [ex_message; Message.mk "m2" "s1" ai "Tell me more" 1770000000002]
              0 ex_message eq_refl)
    as (_ & turn & Hturn & _ & Ha & _).
  exists turn. exact (conj Hturn Ha).
Defined.

(** The turn of a summary message. *)
Lemma formatMessagesForClaude_summary_witness :
  AIService.formatMessagesForClaude
    [Message.mk "m3" "s1" system_summary "They talked about moving." 1770000000003] !! 0
  = Some (MessageParam.mk user "Partner B: They talked about moving.").
Proof.
  exact (proj1 (formatMessagesForClaude_summary_as_partner_b
                  [Message.mk "m3" "s1" system_summary "They talked about moving."
                     1770000000003]
                  0 _ eq_refl) eq_refl).
Defined.

(** A response with no text block: call 0 returns the empty text. *)
Lemma reply_text_witness :
  let response := ApiMessage.mk [ThinkingBlock "..."] (ApiUsage.mk 120 0) in
  tasks (AIService.handle (AIService.ModelReplied 0 response) ex_one_post) !! 0
  = Some (Task.mk "s1" (Settled (Return (AIResponse.mk "" 120 0)))).
Proof.
  intros response.
  destruct (reply_text_is_first_text_block ex_one_post 0 "s1" 0
              [MessageParam.mk user "Partner A: Should we move?"] response)
    as (_ & _ & Hcall & _).
  - vm_compute. reflexivity.
  - vm_compute. reflexivity.
  - exact Hcall.
Defined.

(** A second message for the stored session "s1". *)
Lemma addMessage_spec_witness :
  ∃ w' earlier,
    SessionStore.addMessage "s1" ex_message ex_stored = (Return tt, w')
    ∧ messages w' !! "s1" = Some (earlier ++ [ex_message]).
Proof.
  destruct (addMessage_spec ex_stored "s1" ex_message) as (_ & _ & Happend).
  - vm_compute. reflexivity.
  - destruct Happend as (w' & earlier & Heq & _ & Hm & _).
    + vm_compute. eauto.
    + exists w', earlier. exact (conj Heq Hm).
Defined.




(** * Further properties *)

(** ** The lock of a session *)

Section LockFacts.
Import AIService.

Lemma in_flight_keeps (w w' : World) (sessionId : string) (lock : Promise) :
  (∀ call t, tasks w !! call = Some t → ¬ waiting t → tasks w' !! call = Some t) →
  in_flight w sessionId lock → in_flight w' sessionId lock.
Proof.
  intros Hkeep (call & request & Hcall). exists call, request.
  apply Hkeep; [done|]. intros [p Hp]. discriminate.
Qed.

Lemma resume_other (call other : nat) (w : World) :
  call ≠ other → tasks (resume call w) !! other = tasks w !! other.
Proof.
  intros Hne.
  destruct (resume_cases call w) as [->|(sid & p & _ & _ & ->)]; [done|].
  simpl. by rewrite list_lookup_insert_ne.
Qed.

Lemma resume_lock_inv (call : nat) (w : World) : lock_inv w → lock_inv (resume call w).
Proof.
  intros [Hmap Hwait].
  assert (∀ sid lock, in_flight w sid lock → in_flight (resume call w) sid lock) as Hfl.
  { intros sid lock. apply in_flight_keeps. intros c t. apply resume_keeps. }
  destruct (resume_cases call w) as [Heq|(sid & p & Hc & Hp & Heq)];
    rewrite Heq in *; [by split|].
  rewrite enter_eq in *. simpl in *.
  assert (call < length (tasks w)) as Hlt by (by eapply lookup_lt_Some).
  split.
  - intros sid' lock. simpl. destruct (decide (sid = sid')) as [->|Hne].
    + rewrite lookup_insert_eq. intros [= <-]. eexists call, _. simpl.
      by apply list_lookup_insert_eq.
    + rewrite lookup_insert_ne by done. intros Hl. by apply Hfl, Hmap.
  - intros other sid' lock. simpl. destruct (decide (call = other)) as [->|Hne].
    + rewrite list_lookup_insert_eq by done. discriminate.
    + rewrite list_lookup_insert_ne by done. intros Ht.
      destruct (Hwait _ _ _ Ht) as [Hres|Hin]; [by left|right; by apply Hfl].
Qed.

Lemma resume_all_lock_inv (calls : list nat) (w : World) :
  lock_inv w → lock_inv (resume_all calls w).
Proof.
  revert w. induction calls as [|call calls IH]; intros w Hinv; simpl; [done|].
  by apply IH, resume_lock_inv.
Qed.

(** Once the microtasks have run, a call that waits does so for the lock
    of a call in flight. *)
Lemma run_microtasks_lock_inv (w : World) :
  lock_inv w →
  lock_inv (run_microtasks w)
  ∧ ∀ call sessionId lock,
      tasks (run_microtasks w) !! call = Some (Task.mk sessionId (AwaitLock lock)) →
      in_flight (run_microtasks w) sessionId lock.
Proof.
  intros Hinv.
  assert (lock_inv (run_microtasks w)) as Hinv'
    by (by apply (resume_all_lock_inv (seq 0 (length (tasks w))))).
  split; [done|]. intros call sid lock Ht.
  destruct Hinv' as [_ Hwait]. destruct (Hwait _ _ _ Ht) as [Hres|Hin]; [|done].
  by destruct (run_microtasks_awake w call _ lock Ht eq_refl).
Qed.

Lemma in_flight_arrival (w : World) (t : Task.t) (sessionId : string) (lock : Promise) :
  in_flight w sessionId lock →
  ∃ call request,
    (tasks w ++ [t]) !! call = Some (Task.mk sessionId (AwaitModel lock request)).
Proof.
  intros (call & request & Hcall). exists call, request.
  by apply lookup_app_l_Some.
Qed.

Lemma getAIResponse_lock_inv (sessionId : string) (w : World) :
  lock_inv w → lock_inv (getAIResponse sessionId w).
Proof.
  intros [Hmap Hwait]. unfold getAIResponse.
  destruct (sessionLocks w !! sessionId) as [existingLock|] eqn:Hl.
  - split; simpl.
    + intros sid lock Hs. by apply in_flight_arrival, Hmap.
    + intros call sid lock Ht.
      apply lookup_app_Some in Ht as [Ht|[_ Ht]].
      * destruct (Hwait _ _ _ Ht) as [Hres|Hin]; [by left|].
        right. by apply in_flight_arrival.
      * apply list_lookup_singleton_Some in Ht as [_ [= <- <-]].
        right. by apply in_flight_arrival, Hmap.
  - rewrite enter_eq. split; simpl.
    + intros sid lock. destruct (decide (sessionId = sid)) as [->|Hne].
      * rewrite lookup_insert_eq. intros [= <-].
        eexists (length (tasks w)), _. simpl. by apply list_lookup_middle.
      * rewrite lookup_insert_ne by done. intros Hs.
        by apply in_flight_arrival, Hmap.
    + intros call sid lock Ht.
      apply lookup_app_Some in Ht as [Ht|[_ Ht]].
      * destruct (Hwait _ _ _ Ht) as [Hres|Hin]; [by left|].
        right. by apply in_flight_arrival.
      * apply list_lookup_singleton_Some in Ht as [_ [=]].
Qed.

(** The [finally] of a call in flight, whatever the [try] did to the
    stores. *)
Lemma release_lock_inv (w w2 : World) (call : nat) (sessionId : string)
    (lock : Promise) (request : list MessageParam.t) (result : Outcome AIResponse.t) :
  lock_inv w →
  tasks w !! call = Some (Task.mk sessionId (AwaitModel lock request)) →
  same_runtime w w2 →
  lock_inv (set_tasks (<[call := Task.mk sessionId (Settled result)]>)
                      (release lock sessionId w2)).
Proof.
  intros [Hmap Hwait] Hcall (Hl & _ & Hr & Ht & _).
  assert (call < length (tasks w)) as Hlt by (by eapply lookup_lt_Some).
  assert (∀ sid p, sid ≠ sessionId → in_flight w sid p →
            ∃ c request',
              <[call := Task.mk sessionId (Settled result)]> (tasks w) !! c
              = Some (Task.mk sid (AwaitModel p request'))) as Hother.
  { intros sid p Hne (c & request' & Hc). exists c, request'.
    rewrite list_lookup_insert_ne; [done|]. intros <-. congruence. }
  split; unfold in_flight; simpl; rewrite Ht.
  - intros sid p. rewrite Hl. destruct (decide (sessionId = sid)) as [->|Hne].
    + by rewrite lookup_delete_eq.
    + rewrite lookup_delete_ne by done. intros Hs. by apply Hother, Hmap.
  - intros c sid p Hc. rewrite Hr.
    destruct (decide (call = c)) as [->|Hne].
    { rewrite list_lookup_insert_eq in Hc by done. discriminate. }
    rewrite list_lookup_insert_ne in Hc by done.
    destruct (Hwait _ _ _ Hc) as [Hres|(c' & request' & Hc')].
    + left. by apply elem_of_union_r.
    + destruct (decide (call = c')) as [->|Hne'].
      * left. rewrite Hcall in Hc'. injection Hc' as -> -> ->.
        apply elem_of_union_l, elem_of_singleton. done.
      * right. exists c', request'. by rewrite list_lookup_insert_ne.
Qed.

Lemma locks_held_lock_inv (w : World) : locks_held w → lock_inv w.
Proof. intros [Hmap Hwait]. split; [done|]. intros c sid p Hc. right. by eapply Hwait. Qed.

Lemma locks_held_runtime (w w' : World) :
  same_runtime w w' → locks_held w → locks_held w'.
Proof.
  intros (Hl & _ & _ & Ht & _). unfold locks_held, in_flight. by rewrite Hl, Ht.
Qed.

Lemma saveMessage_runtime (sessionId : string) (author : MessageAuthor)
    (content : string) (topic : option string) (w : World) :
  same_runtime w (snd (MessageService.saveMessage sessionId author content topic w)).
Proof.
  destruct (sessions w !! sessionId) as [session|] eqn:Hs.
  - destruct (messages w !! sessionId) as [earlier|] eqn:Hm.
    + erewrite saveMessage_present by done. by repeat split.
    + unfold MessageService.saveMessage, bind, SessionStore.getSession, gets.
      rewrite Hs. unfold ret, uuidv4, new_Date. simpl.
      rewrite addMessage_None by done. by repeat split.
  - rewrite saveMessage_absent by done. by repeat split.
Qed.

Lemma complete_runtime (sessionId : string) (response : ApiMessage.t) (w : World) :
  same_runtime w (snd (complete sessionId response w)).
Proof.
  unfold complete, bind. rewrite recordUsage_eq.
  set (w1 := set_usageStore _ _).
  pose proof (saveMessage_runtime sessionId ai
                (extractText (ApiMessage.content response)) None w1) as Hrt.
  destruct (MessageService.saveMessage _ _ _ _ w1) as [[message|e] w2];
    simpl in *; by apply (same_runtime_trans w w1 w2).
Qed.

Lemma settle_lock_inv (call : nat) (reply : Outcome ApiMessage.t) (w : World) :
  lock_inv w → lock_inv (settle call reply w).
Proof.
  intros Hinv. unfold settle.
  destruct (tasks w !! call) as [[sessionId [existingLock|lock request|result]]|]
    eqn:Hcall; try done.
  unfold try_finally. destruct reply as [response|e].
  - pose proof (complete_runtime sessionId response w) as Hrt.
    destruct (complete sessionId response w) as [result w2].
    by eapply release_lock_inv.
  - eapply release_lock_inv; [done..|apply same_runtime_refl].
Qed.

Lemma handle_locks_held (ev : Event) (w : World) :
  locks_held w → locks_held (handle ev w).
Proof.
  intros Hinv%locks_held_lock_inv. unfold handle.
  set (w1 := match ev with
             | Call _ => _ | ModelReplied _ _ => _ | ModelFailed _ _ => _ end).
  assert (lock_inv w1) as Hinv1.
  { subst w1. destruct ev as [sessionId|call response|call e].
    - by apply getAIResponse_lock_inv.
    - by apply settle_lock_inv.
    - by apply settle_lock_inv. }
  destruct (run_microtasks_lock_inv w1 Hinv1) as [[Hmap _] Hwait]. by split.
Qed.

Lemma post_message_locks_held (req : Routes.SendMessageRequest.t) (w : World) :
  locks_held w → locks_held (Routes.post_message req w).
Proof.
  intros Hinv. unfold Routes.post_message.
  repeat case_bool_decide; try done.
  pose proof (saveMessage_runtime (Routes.SendMessageRequest.sessionId req)
                (Routes.SendMessageRequest.author req)
                (Routes.SendMessageRequest.content req)
                (Routes.SendMessageRequest.topic req) w) as Hrt.
  destruct (MessageService.saveMessage _ _ _ _ w) as [[message|e] w']; simpl in Hrt.
  - by eapply handle_locks_held, locks_held_runtime.
  - by eapply locks_held_runtime.
Qed.

End LockFacts.

(** X1: in every world the process can reach, an entry of [sessionLocks]
    is the lock of a call of that session that is in flight, and a call
    that waits, waits for the lock of a call of its session that is in
    flight: no call waits for a lock that nobody will resolve. *)
Theorem reachable_locks_held (w : World) :
  reachable w →
  (∀ sessionId lock,
     sessionLocks w !! sessionId = Some lock → in_flight w sessionId lock)
  ∧ (∀ call sessionId lock,
       tasks w !! call = Some (Task.mk sessionId (AwaitLock lock)) →
       in_flight w sessionId lock).
Proof.
  induction 1 as [uuids dates|req w _ IH|ev w _ IH].
  - split; simpl.
    + intros sid lock Hl. by rewrite lookup_empty in Hl.
    + intros call sid lock Hc. by rewrite lookup_nil in Hc.
  - by apply post_message_locks_held.
  - by apply handle_locks_held.
Qed.

Section QueueFacts.
Import AIService.

Lemma settle_keeps_waiting (holder : nat) (reply : Outcome ApiMessage.t)
    (w : World) (call : nat) (t : Task.t) :
  tasks w !! call = Some t → waiting t →
  tasks (settle holder reply w) !! call = Some t.
Proof.
  intros Ht [p Hp]. unfold settle.
  destruct (tasks w !! holder) as [[sessionId [existingLock|lock request|result]]|]
    eqn:Hh; try done.
  assert (holder ≠ call) as Hne.
  { intros ->. rewrite Ht in Hh. injection Hh as ->. discriminate. }
  unfold try_finally. destruct reply as [response|e].
  - pose proof (complete_runtime sessionId response w) as (_ & _ & _ & Hts & _).
    destruct (complete sessionId response w) as [result w2]. simpl in *.
    by rewrite list_lookup_insert_ne, Hts.
  - simpl. by rewrite list_lookup_insert_ne.
Qed.

Lemma settle_resolves (holder : nat) (reply : Outcome ApiMessage.t) (w : World)
    (sessionId : string) (lock : Promise) (request : list MessageParam.t) :
  tasks w !! holder = Some (Task.mk sessionId (AwaitModel lock request)) →
  lock ∈ resolved (settle holder reply w).
Proof.
  intros Hh. unfold settle. rewrite Hh. unfold try_finally.
  destruct reply as [response|e].
  - pose proof (complete_runtime sessionId response w) as (_ & _ & Hr & _).
    destruct (complete sessionId response w) as [result w2]. simpl in *.
    rewrite Hr. apply elem_of_union_l, elem_of_singleton. done.
  - simpl. apply elem_of_union_l, elem_of_singleton. done.
Qed.

Lemma settle_resolved_mono (holder : nat) (reply : Outcome ApiMessage.t) (w : World)
    (lock : Promise) :
  lock ∈ resolved w → lock ∈ resolved (settle holder reply w).
Proof.
  intros Hin. unfold settle.
  destruct (tasks w !! holder) as [[sessionId [existingLock|own request|result]]|];
    try done.
  unfold try_finally. destruct reply as [response|e].
  - pose proof (complete_runtime sessionId response w) as (_ & _ & Hr & _).
    destruct (complete sessionId response w) as [result w2]. simpl in *.
    rewrite Hr. by apply elem_of_union_r.
  - simpl. by apply elem_of_union_r.
Qed.

(** A call that waits for a resolved lock is in flight after the
    microtasks, with the history of that moment as its request. *)
Lemma resume_all_admits (calls : list nat) (w : World) (call : nat)
    (sessionId : string) (lock : Promise) :
  call ∈ calls →
  tasks w !! call = Some (Task.mk sessionId (AwaitLock lock)) →
  lock ∈ resolved w →
  ∃ own,
    tasks (resume_all calls w) !! call
    = Some (Task.mk sessionId
              (AwaitModel own (formatMessagesForClaude (history w sessionId)))).
Proof.
  revert w. induction calls as [|c calls IH]; intros w Hin Ht Hres.
  - by apply elem_of_nil in Hin.
  - simpl. destruct (decide (c = call)) as [->|Hne].
    + exists (promises w). apply resume_all_keeps.
      * unfold resume. rewrite Ht. rewrite decide_True by done.
        rewrite enter_eq. simpl. apply list_lookup_insert_eq.
        by eapply lookup_lt_Some.
      * intros [p Hp]. discriminate.
    + apply elem_of_cons in Hin as [->|Hin]; [done|].
      destruct (IH (resume c w) Hin) as [own Hown].
      * by rewrite resume_other.
      * by rewrite resume_resolved.
      * exists own. rewrite Hown. unfold history.
        by destruct (resume_stores c w) as (_ & -> & _).
Qed.

(** A call that waits for a lock not resolved keeps waiting. *)
Lemma resume_all_waits (calls : list nat) (w : World) (call : nat) (t : Task.t)
    (lock : Promise) :
  tasks w !! call = Some t → waits_for lock t → lock ∉ resolved w →
  tasks (resume_all calls w) !! call = Some t.
Proof.
  revert w. induction calls as [|c calls IH]; intros w Ht Hw Hres; [done|].
  simpl. apply IH; [|done|by rewrite resume_resolved].
  destruct (decide (c = call)) as [->|Hne]; [|by rewrite resume_other].
  unfold resume. rewrite Ht. destruct t as [sid pc].
  unfold waits_for in Hw. simpl in Hw. subst pc. by rewrite decide_False.
Qed.

Lemma history_read (w : World) (sessionId : string) :
  fst (MessageService.getConversationHistory sessionId w)
  = Return (history w sessionId).
Proof. reflexivity. Qed.

Lemma holder_exit (w : World) (holder waiter : nat) (holding sessionId : string)
    (lock : Promise) (request : list MessageParam.t) (reply : Outcome ApiMessage.t) :
  tasks w !! holder = Some (Task.mk holding (AwaitModel lock request)) →
  tasks w !! waiter = Some (Task.mk sessionId (AwaitLock lock)) →
  let w' := run_microtasks (settle holder reply w) in
  lock ∈ resolved w'
  ∧ ∃ own,
      tasks w' !! waiter
      = Some (Task.mk sessionId
                (AwaitModel own (formatMessagesForClaude (history w' sessionId)))).
Proof.
  intros Hh Hw w'.
  pose proof (settle_resolves holder reply w _ _ _ Hh) as Hres.
  split; [subst w'; by rewrite run_microtasks_resolved|].
  assert (tasks (settle holder reply w) !! waiter
          = Some (Task.mk sessionId (AwaitLock lock))) as Hw1.
  { apply settle_keeps_waiting; [done|by exists lock]. }
  destruct (resume_all_admits
              (seq 0 (length (tasks (settle holder reply w))))
              (settle holder reply w) waiter sessionId lock) as [own Hown];
    [|done|done|].
  { apply elem_of_seq. apply lookup_lt_Some in Hw1. lia. }
  exists own. subst w'. unfold run_microtasks.
  fold (resume_all (seq 0 (length (tasks (settle holder reply w))))
          (settle holder reply w)).
  rewrite Hown. unfold history.
  by destruct (resume_all_stores (seq 0 (length (tasks (settle holder reply w))))
                 (settle holder reply w)) as (_ & -> & _).
Qed.

End QueueFacts.

(** X2: when the model call of a call in flight settles, with a response
    or with an error, its lock is resolved and every call that waited for
    that lock is in flight once the event is handled: it has read the
    history as it then stands, the reply just saved included, and sent it
    as its request. *)
Theorem holder_exit_admits_waiters (w : World) (holder waiter : nat)
    (holding sessionId : string) (lock : Promise)
    (request : list MessageParam.t) :
  tasks w !! holder = Some (Task.mk holding (AwaitModel lock request)) →
  tasks w !! waiter = Some (Task.mk sessionId (AwaitLock lock)) →
  ∀ ev,
    (∃ response, ev = AIService.ModelReplied holder response)
    ∨ (∃ e, ev = AIService.ModelFailed holder e) →
    let w' := AIService.handle ev w in
    lock ∈ resolved w'
    ∧ ∃ own read,
        fst (MessageService.getConversationHistory sessionId w') = Return read
        ∧ tasks w' !! waiter
          = Some (Task.mk sessionId
                    (AwaitModel own (AIService.formatMessagesForClaude read))).
Proof.
  intros Hh Hw ev Hev w'.
  assert (∃ reply, w' = AIService.run_microtasks (AIService.settle holder reply w))
    as [reply ->].
  { destruct Hev as [[response ->]|[e ->]]; eexists; reflexivity. }
  destruct (holder_exit w holder waiter holding sessionId lock request reply Hh Hw)
    as [Hres [own Hown]].
  split; [done|]. eexists own, _. split; [apply history_read|done].
Qed.

(** X3: a call that waits for a lock is not admitted before that lock is
    resolved: whatever event is handled, if the lock is still unresolved
    afterwards the call still waits for it. *)
Theorem waiter_stays_until_resolved (w : World) (ev : AIService.Event)
    (waiter : nat) (sessionId : string) (lock : Promise) :
  tasks w !! waiter = Some (Task.mk sessionId (AwaitLock lock)) →
  lock ∉ resolved (AIService.handle ev w) →
  tasks (AIService.handle ev w) !! waiter
  = Some (Task.mk sessionId (AwaitLock lock)).
Proof.
  intros Hw Hres. unfold AIService.handle in *.
  set (w1 := match ev with
             | AIService.Call _ => _ | AIService.ModelReplied _ _ => _
             | AIService.ModelFailed _ _ => _ end) in *.
  rewrite run_microtasks_resolved in Hres.
  apply (resume_all_waits _ w1 waiter _ lock); [|done|done].
  subst w1. destruct ev as [sid|call response|call e].
  - unfold AIService.getAIResponse.
    destruct (sessionLocks w !! sid); [|rewrite enter_eq]; simpl;
      by apply lookup_app_l_Some.
  - apply settle_keeps_waiting; [done|by exists lock].
  - apply settle_keeps_waiting; [done|by exists lock].
Qed.

(** X4: a call of [getAIResponse] is the next call in arrival order. With
    no entry for its session in [sessionLocks] it is admitted at once,
    whatever the other sessions are doing: it takes a new lock and sends
    the shaped history. With an entry whose lock is not resolved it waits
    for that lock. *)
Theorem arrival_admitted_or_queued (w : World) (sessionId : string) :
  let w' := AIService.handle (AIService.Call sessionId) w in
  let call := length (tasks w) in
  length (tasks w') = S (length (tasks w))
  ∧ (sessionLocks w !! sessionId = None →
     ∃ read,
       fst (MessageService.getConversationHistory sessionId w) = Return read
       ∧ tasks w' !! call
         = Some (Task.mk sessionId
                   (AwaitModel (promises w) (AIService.formatMessagesForClaude read))))
  ∧ (∀ lock, sessionLocks w !! sessionId = Some lock → lock ∉ resolved w →
     tasks w' !! call = Some (Task.mk sessionId (AwaitLock lock))).
Proof.
  intros w' call. subst w'. unfold AIService.handle, AIService.run_microtasks.
  fold (resume_all (seq 0 (length (tasks (AIService.getAIResponse sessionId w))))
          (AIService.getAIResponse sessionId w)).
  rewrite resume_all_length.
  unfold AIService.getAIResponse.
  destruct (sessionLocks w !! sessionId) as [existingLock|] eqn:Hl.
  - simpl. rewrite length_app. simpl. split; [lia|]. split; [done|].
    intros lock [= <-] Hres.
    apply (resume_all_waits _ _ call _ existingLock); simpl; try done.
    by apply list_lookup_middle.
  - rewrite enter_eq. simpl. rewrite length_app. simpl. split; [lia|].
    split; [|done]. intros _. exists (history w sessionId). split; [done|].
    apply resume_all_keeps.
    + simpl. by apply list_lookup_middle.
    + intros [p Hp]. discriminate.
Qed.

(** ** One usage record and one reply per call that returned *)

Section AccountFacts.
Import AIService.

Lemma filter_length_insert {A} (P : A → bool) (l : list A) (j : nat) (x y : A) :
  l !! j = Some x →
  length (List.filter P (<[j := y]> l)) + (if P x then 1 else 0)
  = length (List.filter P l) + (if P y then 1 else 0).
Proof.
  revert j. induction l as [|a l IH]; intros [|j] Hj; try discriminate; simpl in *.
  - injection Hj as ->. destruct (P x), (P y); simpl; lia.
  - specialize (IH j Hj). destruct (P a); simpl; lia.
Qed.

Lemma successes_resume (call : nat) (w : World) (sessionId : string) :
  successes (resume call w) sessionId = successes w sessionId.
Proof.
  destruct (resume_cases call w) as [->|(sid & p & Hc & _ & ->)]; [done|].
  rewrite enter_eq. unfold successes. simpl.
  pose proof (filter_length_insert (returned sessionId) (tasks w) call _
                (Task.mk sid (AwaitModel (promises w)
                   (formatMessagesForClaude (default [] (messages w !! sid))))) Hc)
    as Heq.
  simpl in Heq. lia.
Qed.

Lemma successes_run_microtasks (w : World) (sessionId : string) :
  successes (run_microtasks w) sessionId = successes w sessionId.
Proof.
  unfold run_microtasks. generalize (seq 0 (length (tasks w))). intros calls.
  revert w. induction calls as [|call calls IH]; intros w; simpl; [done|].
  by rewrite IH, successes_resume.
Qed.

Lemma successes_getAIResponse (sessionId arriving : string) (w : World) :
  successes (getAIResponse arriving w) sessionId = successes w sessionId.
Proof.
  unfold getAIResponse, successes.
  destruct (sessionLocks w !! arriving); [|rewrite enter_eq]; simpl;
    rewrite List.filter_app, length_app; simpl; lia.
Qed.

Lemma accounts_ext (w w' : World) :
  same_stores w w' →
  (∀ sessionId, successes w' sessionId = successes w sessionId) →
  accounts w → accounts w'.
Proof.
  intros (_ & Hm & Hu & _) Hs Hacc sid. unfold records, history.
  rewrite Hm, Hu, Hs. apply Hacc.
Qed.

Lemma settle_accounts (call : nat) (reply : Outcome ApiMessage.t) (w : World) :
  store_wf w → accounts w → accounts (settle call reply w).
Proof.
  intros Hwf Hacc.
  destruct (tasks w !! call) as [[sessionId pc]|] eqn:Hcall;
    [|by unfold settle; rewrite Hcall].
  destruct pc as [existingLock|lock request|result];
    try by (unfold settle; rewrite Hcall).
  destruct reply as [response|e].
  - destruct (complete_result w sessionId response Hwf)
      as (w2 & message & Hc & _ & Hauthor & _ & Hm & Hu & Hrt).
    rewrite (settle_replied _ _ _ _ _ Hcall _ _ _ Hc).
    destruct Hrt as (_ & _ & _ & Hts & _).
    intros sid. unfold records, history, successes. simpl. rewrite Hm, Hu, Hts.
    pose proof (filter_length_insert (returned sid) (tasks w) call _
                  (Task.mk sessionId (Settled (Return
                     (AIResponse.mk (extractText (ApiMessage.content response))
                        (ApiUsage.input_tokens (ApiMessage.usage response))
                        (ApiUsage.output_tokens (ApiMessage.usage response))))))
                  Hcall) as Heq.
    destruct (Hacc sid) as [Hr Hh]. unfold records, history, successes in Hr, Hh.
    cbn [returned Task.pc Task.sessionId] in Heq.
    destruct (decide (sessionId = sid)) as [->|Hne].
    + rewrite !lookup_insert_eq. simpl.
      rewrite bool_decide_eq_true_2 in Heq by done.
      rewrite List.filter_app, !length_app. simpl.
      unfold by_model at 2. rewrite Hauthor, bool_decide_eq_true_2 by done.
      simpl. lia.
    + rewrite !lookup_insert_ne by done.
      rewrite bool_decide_eq_false_2 in Heq by done. lia.
  - rewrite (settle_failed _ _ _ _ _ Hcall).
    intros sid. unfold records, history, successes. simpl.
    pose proof (filter_length_insert (returned sid) (tasks w) call _
                  (Task.mk sessionId (Settled (Throw e))) Hcall) as Heq.
    destruct (Hacc sid) as [Hr Hh]. unfold records, history, successes in Hr, Hh.
    simpl in Heq. lia.
Qed.

Lemma handle_accounts (ev : Event) (w : World) :
  store_wf w → accounts w → accounts (handle ev w).
Proof.
  intros Hwf Hacc. unfold handle.
  eapply accounts_ext;
    [apply run_microtasks_stores | apply successes_run_microtasks |].
  destruct ev as [sessionId|call response|call e].
  - eapply accounts_ext;
      [apply getAIResponse_stores | intros; apply successes_getAIResponse | done].
  - by apply settle_accounts.
  - by apply settle_accounts.
Qed.

Lemma post_message_accounts (req : Routes.SendMessageRequest.t) (w : World) :
  store_wf w → accounts w → accounts (Routes.post_message req w).
Proof.
  intros Hwf Hacc. unfold Routes.post_message.
  case_bool_decide as Hempty; [done|].
  case_bool_decide as Hauthor; [done|].
  destruct (saveMessage_result (Routes.SendMessageRequest.sessionId req)
              (Routes.SendMessageRequest.author req)
              (Routes.SendMessageRequest.content req)
              (Routes.SendMessageRequest.topic req) w Hwf)
    as (w' & Heq & Hm & _ & Hu & _ & _ & Hrt).
  pose proof (saveMessage_wf (Routes.SendMessageRequest.sessionId req)
                (Routes.SendMessageRequest.author req)
                (Routes.SendMessageRequest.content req)
                (Routes.SendMessageRequest.topic req) w Hwf) as Hwf'.
  rewrite Heq in *. simpl in Hwf'.
  apply handle_accounts; [done|].
  destruct Hrt as (_ & _ & _ & Hts & _).
  intros sid. unfold records, history, successes. rewrite Hm, Hu, Hts.
  destruct (Hacc sid) as [Hr Hh]. unfold records, history, successes in Hr, Hh.
  split; [done|].
  destruct (decide (Routes.SendMessageRequest.sessionId req = sid)) as [<-|Hne].
  - rewrite lookup_insert_eq. simpl. rewrite List.filter_app, length_app. simpl.
    unfold by_model at 2. simpl.
    rewrite bool_decide_eq_false_2; [simpl; lia|].
    intros Hai. apply Hauthor. rewrite Hai. by split.
  - by rewrite lookup_insert_ne.
Qed.

Lemma reachable_accounts (w : World) : reachable w → accounts w.
Proof.
  induction 1 as [uuids dates|req w Hw IH|ev w Hw IH].
  - intros sid. unfold records, history, successes. simpl.
    by rewrite !lookup_empty.
  - apply post_message_accounts; [|done]. by apply reachable_invariants.
  - apply handle_accounts; [|done]. by apply reachable_invariants.
Qed.

End AccountFacts.

(** X5: in every world the process can reach, and for every session, the
    number of usage records ([apiCalls] of the summary) and the number of
    messages of the model in the history both equal the number of calls
    of [getAIResponse] for the session that returned a result: a call
    that failed or is still in flight has left neither. *)
Theorem one_record_and_reply_per_success (w : World) (sessionId : string) :
  reachable w →
  ∃ summary read,
    fst (UsageService.getSessionUsage sessionId w) = Return summary
    ∧ fst (MessageService.getConversationHistory sessionId w) = Return read
    ∧ UsageSummary.apiCalls summary = successes w sessionId
    ∧ length (List.filter by_model read) = successes w sessionId.
Proof.
  intros Hw. destruct (reachable_accounts w Hw sessionId) as [Hr Hh].
  eexists _, (history w sessionId). split; [reflexivity|]. by repeat split.
Qed.

(** ** Nothing stored is changed or removed *)

Section AppendFacts.
Import AIService.

Lemma extends_refl (w : World) : extends w w.
Proof. by intros sid. Qed.

Lemma extends_trans (w1 w2 w3 : World) :
  extends w1 w2 → extends w2 w3 → extends w1 w3.
Proof.
  intros H12 H23 sid. destruct (H12 sid) as (Hh & Hr & Hs), (H23 sid) as (Hh' & Hr' & Hs').
  repeat split; [by etrans | by etrans | auto].
Qed.

Lemma extends_stores (w w' : World) : same_stores w w' → extends w w'.
Proof.
  intros (Hs & Hm & Hu & _) sid. unfold history, records. by rewrite Hs, Hm, Hu.
Qed.

Lemma saveMessage_extends (sessionId : string) (author : MessageAuthor)
    (content : string) (topic : option string) (w : World) :
  store_wf w →
  extends w (snd (MessageService.saveMessage sessionId author content topic w)).
Proof.
  intros Hwf.
  destruct (saveMessage_result sessionId author content topic w Hwf)
    as (w' & -> & Hm & Hs & Hu & _). simpl.
  intros sid. unfold history, records. rewrite Hm, Hs, Hu. repeat split; [|done|].
  - destruct (decide (sessionId = sid)) as [->|Hne].
    + rewrite lookup_insert_eq. simpl. by apply prefix_app_r.
    + by rewrite lookup_insert_ne.
  - intros session Hsession. destruct (sessions w !! sessionId) eqn:Hl; [done|].
    rewrite lookup_insert_ne; [done|]. intros <-. congruence.
Qed.

Lemma recordUsage_extends (sessionId : string) (inputTokens outputTokens : Z)
    (model : string) (w : World) :
  extends w (snd (UsageService.recordUsage sessionId inputTokens outputTokens model w)).
Proof.
  rewrite recordUsage_eq. simpl. intros sid. unfold history, records. simpl.
  repeat split; [done| |done].
  destruct (decide (sessionId = sid)) as [->|Hne].
  - rewrite lookup_insert_eq. simpl. by apply prefix_app_r.
  - by rewrite lookup_insert_ne.
Qed.

Lemma complete_extends (sessionId : string) (response : ApiMessage.t) (w : World) :
  store_wf w → extends w (snd (complete sessionId response w)).
Proof.
  intros Hwf. unfold complete, bind.
  pose proof (recordUsage_extends sessionId
                (ApiUsage.input_tokens (ApiMessage.usage response))
                (ApiUsage.output_tokens (ApiMessage.usage response)) AI_MODEL w) as H1.
  rewrite recordUsage_eq in *. simpl in H1.
  set (w1 := set_usageStore _ _) in *.
  assert (store_wf w1) as Hwf1 by exact Hwf.
  pose proof (saveMessage_extends sessionId ai
                (extractText (ApiMessage.content response)) None w1 Hwf1) as H2.
  destruct (MessageService.saveMessage _ _ _ _ w1) as [[message|e] w2];
    simpl in *; by eapply extends_trans.
Qed.

Lemma settle_extends (call : nat) (reply : Outcome ApiMessage.t) (w : World) :
  store_wf w → extends w (settle call reply w).
Proof.
  intros Hwf. unfold settle.
  destruct (tasks w !! call) as [[sessionId [existingLock|lock request|result]]|];
    try apply extends_refl.
  unfold try_finally. destruct reply as [response|e].
  - pose proof (complete_extends sessionId response w Hwf) as Hext.
    destruct (complete sessionId response w) as [result w2].
    eapply extends_trans; [exact Hext|]. apply extends_stores. by repeat split.
  - apply extends_stores. by repeat split.
Qed.

Lemma handle_extends (ev : Event) (w : World) :
  store_wf w → extends w (handle ev w).
Proof.
  intros Hwf. unfold handle.
  eapply extends_trans; [|apply extends_stores, run_microtasks_stores].
  destruct ev as [sessionId|call response|call e].
  - apply extends_stores, getAIResponse_stores.
  - by apply settle_extends.
  - by apply settle_extends.
Qed.

Lemma post_message_extends (req : Routes.SendMessageRequest.t) (w : World) :
  store_wf w → extends w (Routes.post_message req w).
Proof.
  intros Hwf. unfold Routes.post_message.
  repeat case_bool_decide; try apply extends_refl.
  pose proof (saveMessage_extends (Routes.SendMessageRequest.sessionId req)
                (Routes.SendMessageRequest.author req)
                (Routes.SendMessageRequest.content req)
                (Routes.SendMessageRequest.topic req) w Hwf) as Hext.
  pose proof (saveMessage_wf (Routes.SendMessageRequest.sessionId req)
                (Routes.SendMessageRequest.author req)
                (Routes.SendMessageRequest.content req)
                (Routes.SendMessageRequest.topic req) w Hwf) as Hwf'.
  destruct (MessageService.saveMessage _ _ _ _ w) as [[message|e] w']; [|done].
  eapply extends_trans; [done|]. by apply handle_extends.
Qed.

Lemma step_reachable (w w' : World) : step w w' → reachable w → reachable w'.
Proof. intros [req w0|ev w0] Hw; by constructor. Qed.

Lemma steps_reachable (w w' : World) : rtc step w w' → reachable w → reachable w'.
Proof.
  induction 1 as [w|w1 w2 w3 H12 _ IH]; intros Hw; [done|].
  by eapply IH, step_reachable.
Qed.

Lemma steps_extend (w w' : World) : rtc step w w' → reachable w → extends w w'.
Proof.
  induction 1 as [w|w1 w2 w3 H12 _ IH]; intros Hw; [apply extends_refl|].
  destruct (reachable_invariants w1 Hw) as [Hwf _].
  eapply extends_trans; [|by eapply IH, step_reachable].
  destruct H12 as [req w0|ev w0]; [by apply post_message_extends|by apply handle_extends].
Qed.

End AppendFacts.

(** X6: whatever happens after a reachable world (requests posted, model
    calls answered or failed, in any number and order), the history read
    for a session then starts with the history read for it now: no
    message is ever changed, removed or reordered. A session that exists
    keeps its record, so its topic is the one it was created with. *)
Theorem transcript_append_only (w w' : World) (sessionId : string) :
  reachable w → rtc step w w' →
  ∃ read read',
    fst (MessageService.getConversationHistory sessionId w) = Return read
    ∧ fst (MessageService.getConversationHistory sessionId w') = Return read'
    ∧ read `prefix_of` read'
    ∧ ∀ session,
        fst (MessageService.getSession sessionId w) = Return (Some session) →
        fst (MessageService.getSession sessionId w') = Return (Some session).
Proof.
  intros Hw Hsteps. destruct (steps_extend w w' Hsteps Hw sessionId) as (Hh & _ & Hs).
  exists (history w sessionId), (history w' sessionId).
  repeat split; try done.
  intros session. unfold MessageService.getSession, SessionStore.getSession, gets.
  simpl. intros [= Hsession]. by rewrite (Hs session Hsession).
Qed.

(** X7: whatever happens after a reachable world, the usage records read
    for a session then start with the records read for it now: the
    ledger only grows, at its end. *)
Theorem usage_append_only (w w' : World) (sessionId : string) :
  reachable w → rtc step w w' →
  ∃ before after,
    fst (UsageService.getSessionUsageRecords sessionId w) = Return before
    ∧ fst (UsageService.getSessionUsageRecords sessionId w') = Return after
    ∧ before `prefix_of` after.
Proof.
  intros Hw Hsteps. destruct (steps_extend w w' Hsteps Hw sessionId) as (_ & Hr & _).
  by exists (records w sessionId), (records w' sessionId).
Qed.

(** ** Invariants of the stores *)

(** A property of the stores that the two writers keep is kept by
    everything the process does. *)
Section StoreInvariant.
Import AIService.
Variable P : World → Prop.
Hypothesis P_stores : ∀ w w', same_stores w w' → P w → P w'.
Hypothesis P_recordUsage :
  ∀ sessionId inputTokens outputTokens model w,
    P w → P (snd (UsageService.recordUsage sessionId inputTokens outputTokens model w)).
Hypothesis P_saveMessage :
  ∀ sessionId author content topic w,
    store_wf w → ids_generated w → P w →
    P (snd (MessageService.saveMessage sessionId author content topic w)).

Lemma invariant_complete (sessionId : string) (response : ApiMessage.t) (w : World) :
  store_wf w → ids_generated w → P w → P (snd (complete sessionId response w)).
Proof using P_recordUsage P_saveMessage.
  intros Hwf Hgen HP. unfold complete, bind.
  pose proof (P_recordUsage sessionId
                (ApiUsage.input_tokens (ApiMessage.usage response))
                (ApiUsage.output_tokens (ApiMessage.usage response)) AI_MODEL w HP) as H1.
  rewrite recordUsage_eq in *. simpl in H1.
  set (w1 := set_usageStore _ _) in *.
  assert (store_wf w1) as Hwf1 by exact Hwf.
  assert (ids_generated w1) as Hgen1 by exact Hgen.
  pose proof (P_saveMessage sessionId ai
                (extractText (ApiMessage.content response)) None w1 Hwf1 Hgen1 H1) as H2.
  by destruct (MessageService.saveMessage _ _ _ _ w1) as [[message|e] w2].
Qed.

Lemma invariant_settle (call : nat) (reply : Outcome ApiMessage.t) (w : World) :
  store_wf w → ids_generated w → P w → P (settle call reply w).
Proof using P_stores P_recordUsage P_saveMessage.
  intros Hwf Hgen HP. unfold settle.
  destruct (tasks w !! call) as [[sessionId [existingLock|lock request|result]]|];
    try done.
  unfold try_finally. destruct reply as [response|e].
  - pose proof (invariant_complete sessionId response w Hwf Hgen HP) as H2.
    destruct (complete sessionId response w) as [result w2].
    eapply P_stores; [|exact H2]. by repeat split.
  - eapply P_stores; [|exact HP]. by repeat split.
Qed.

Lemma invariant_handle (ev : Event) (w : World) :
  store_wf w → ids_generated w → P w → P (handle ev w).
Proof using P_stores P_recordUsage P_saveMessage.
  intros Hwf Hgen HP. unfold handle.
  eapply P_stores; [apply run_microtasks_stores|].
  destruct ev as [sessionId|call response|call e].
  - eapply P_stores; [apply getAIResponse_stores|done].
  - by apply invariant_settle.
  - by apply invariant_settle.
Qed.

Lemma invariant_post_message (req : Routes.SendMessageRequest.t) (w : World) :
  store_wf w → ids_generated w → P w → P (Routes.post_message req w).
Proof using P_stores P_recordUsage P_saveMessage.
  intros Hwf Hgen HP. unfold Routes.post_message.
  repeat case_bool_decide; try done.
  pose proof (P_saveMessage (Routes.SendMessageRequest.sessionId req)
                (Routes.SendMessageRequest.author req)
                (Routes.SendMessageRequest.content req)
                (Routes.SendMessageRequest.topic req) w Hwf Hgen HP) as H1.
  pose proof (saveMessage_wf (Routes.SendMessageRequest.sessionId req)
                (Routes.SendMessageRequest.author req)
                (Routes.SendMessageRequest.content req)
                (Routes.SendMessageRequest.topic req) w Hwf) as Hwf'.
  pose proof (saveMessage_ids_generated (Routes.SendMessageRequest.sessionId req)
                (Routes.SendMessageRequest.author req)
                (Routes.SendMessageRequest.content req)
                (Routes.SendMessageRequest.topic req) w Hwf Hgen) as Hgen'.
  destruct (MessageService.saveMessage _ _ _ _ w) as [[message|e] w']; [|done].
  by apply invariant_handle.
Qed.

Lemma invariant_reachable (w : World) :
  (∀ uuids dates, P (boot uuids dates)) → reachable w → P w.
Proof using P_stores P_recordUsage P_saveMessage.
  intros Hboot. induction 1 as [uuids dates|req w Hw IH|ev w Hw IH]; [done| |].
  - destruct (reachable_invariants w Hw). by apply invariant_post_message.
  - destruct (reachable_invariants w Hw). by apply invariant_handle.
Qed.

End StoreInvariant.

Section IdFacts.

(** Where a message stored after an append was before it. *)
Lemma stored_at_append (w w' : World) (sessionId : string) (new : Message.t)
    (sid : string) (i : nat) (message : Message.t) :
  messages w' = <[sessionId := history w sessionId ++ [new]]> (messages w) →
  stored_at w' sid i message →
  stored_at w sid i message
  ∨ (sid = sessionId ∧ i = length (history w sessionId) ∧ message = new).
Proof.
  intros Hm (stored & Hl & Hi). rewrite Hm in Hl.
  destruct (decide (sessionId = sid)) as [->|Hne].
  - rewrite lookup_insert_eq in Hl. injection Hl as <-.
    apply lookup_app_Some in Hi as [Hi|[Hge Hi]].
    + left. unfold history in Hi.
      destruct (messages w !! sid) as [earlier|] eqn:He; [by exists earlier|].
      simpl in Hi. by rewrite lookup_nil in Hi.
    + right. apply list_lookup_singleton_Some in Hi as [Hi ->].
      repeat split; try done. lia.
  - rewrite lookup_insert_ne in Hl by done. left. by exists stored.
Qed.

Lemma stored_at_elem (w : World) (sid : string) (i : nat) (message : Message.t) :
  stored_at w sid i message →
  ∃ stored, messages w !! sid = Some stored ∧ message ∈ stored.
Proof.
  intros (stored & Hl & Hi). exists stored. split; [done|].
  by eapply list_elem_of_lookup_2.
Qed.

Lemma unique_ids_saveMessage (sessionId : string) (author : MessageAuthor)
    (content : string) (topic : option string) (w : World) :
  store_wf w → ids_generated w →
  (Inj (=) (=) (uuid_source w) → unique_ids w) →
  Inj (=) (=) (uuid_source (snd (MessageService.saveMessage sessionId author content topic w))) →
  unique_ids (snd (MessageService.saveMessage sessionId author content topic w)).
Proof.
  intros Hwf Hgen Huniq.
  destruct (saveMessage_result sessionId author content topic w Hwf)
    as (w' & -> & Hm & _ & _ & _ & _ & Hrt).
  destruct Hrt as (_ & _ & _ & _ & Hsrc & _). simpl. rewrite Hsrc. intros Hinj.
  specialize (Huniq Hinj).
  set (new := saved sessionId author content w _) in *.
  assert (∀ sid i message, stored_at w sid i message →
            Message.id message ≠ Message.id new) as Hfresh.
  { intros sid i message (stored & Hl & Hin)%stored_at_elem Hid.
    destruct (Hgen sid stored message Hl Hin) as (k & Hk & Hidk).
    rewrite Hidk in Hid. simpl in Hid. apply Hinj in Hid. lia. }
  intros sid1 i1 m1 sid2 i2 m2 H1 H2 Hid.
  destruct (stored_at_append w w' sessionId new sid1 i1 m1 Hm H1)
    as [H1'|(-> & -> & ->)];
    destruct (stored_at_append w w' sessionId new sid2 i2 m2 Hm H2)
      as [H2'|(-> & -> & ->)].
  - by eapply Huniq.
  - destruct (Hfresh _ _ _ H1' Hid).
  - destruct (Hfresh _ _ _ H2' (eq_sym Hid)).
  - done.
Qed.

Lemma reachable_unique_ids (w : World) :
  reachable w → Inj (=) (=) (uuid_source w) → unique_ids w.
Proof.
  apply (invariant_reachable (λ w, Inj (=) (=) (uuid_source w) → unique_ids w)).
  - intros w1 w2 (_ & Hm & _ & _ & _ & Hsrc & _) H1. rewrite Hsrc.
    intros Hinj. unfold unique_ids, stored_at. rewrite Hm. by apply H1.
  - intros sid i o m w1 H1. by rewrite recordUsage_eq.
  - intros sid a c t w1 Hwf Hgen H1. by apply unique_ids_saveMessage.
  - intros uuids dates _ sid1 i1 m1 sid2 i2 m2 (stored & Hl & _).
    simpl in Hl. by rewrite lookup_empty in Hl.
Qed.

Lemma timed_saveMessage (sessionId : string) (author : MessageAuthor)
    (content : string) (topic : option string) (w : World) :
  store_wf w →
  (clock_monotone w → timed w) →
  clock_monotone (snd (MessageService.saveMessage sessionId author content topic w)) →
  timed (snd (MessageService.saveMessage sessionId author content topic w)).
Proof.
  intros Hwf Htimed.
  destruct (saveMessage_result sessionId author content topic w Hwf)
    as (w' & -> & Hm & _ & _ & _ & Hreads & Hrt).
  destruct Hrt as (_ & _ & _ & _ & _ & Hclock). simpl.
  unfold clock_monotone, timed. rewrite Hclock, Hreads, Hm. intros Hmono.
  specialize (Htimed Hmono).
  set (reads := match sessions w !! sessionId with None => 1 | Some _ => 0 end) in *.
  set (new := saved sessionId author content w reads) in *.
  assert (∀ old, old ∈ default [] (messages w !! sessionId) →
            (Message.createdAt old ≤ Message.createdAt new)%Z) as Hold.
  { intros old Hin.
    destruct (messages w !! sessionId) as [earlier|] eqn:He;
      [|by apply elem_of_nil in Hin].
    destruct (Htimed _ _ He) as [_ Hbound]. apply Hbound; [done|lia]. }
  intros sid stored Hl. destruct (decide (sessionId = sid)) as [->|Hne].
  - rewrite lookup_insert_eq in Hl. injection Hl as <-. split.
    + intros i j earlier later Hij Hi Hj.
      apply lookup_app_Some in Hj as [Hj|[Hge Hj]].
      * assert (i < length (default [] (messages w !! sid))) as Hlt
          by (apply lookup_lt_Some in Hj; lia).
        rewrite lookup_app_l in Hi by done.
        destruct (messages w !! sid) as [old|] eqn:He;
          [|simpl in Hi; by rewrite lookup_nil in Hi].
        destruct (Htimed _ _ He) as [Hchron _]. simpl in Hi, Hj.
        exact (Hchron i j earlier later Hij Hi Hj).
      * apply list_lookup_singleton_Some in Hj as [_ <-].
        apply lookup_app_Some in Hi as [Hi|[_ Hi]].
        -- apply Hold. by eapply list_elem_of_lookup_2.
        -- by apply list_lookup_singleton_Some in Hi as [_ <-].
    + intros message k [Hin|Hin]%elem_of_app Hk.
      * destruct (messages w !! sid) as [old|] eqn:He;
          [|by apply elem_of_nil in Hin].
        destruct (Htimed _ _ He) as [_ Hbound]. apply Hbound; [done|lia].
      * apply list_elem_of_singleton in Hin as ->. simpl. apply Hmono. lia.
  - rewrite lookup_insert_ne in Hl by done.
    destruct (Htimed _ _ Hl) as [Hchron Hbound]. split; [done|].
    intros message k Hin Hk. apply Hbound; [done|lia].
Qed.

Lemma reachable_timed (w : World) : reachable w → clock_monotone w → timed w.
Proof.
  apply (invariant_reachable (λ w, clock_monotone w → timed w)).
  - intros w1 w2 (_ & Hm & _ & _ & Hcalls & _ & Hclock) H1.
    unfold clock_monotone, timed. rewrite Hm, Hcalls, Hclock. apply H1.
  - intros sid i o m w1 H1. rewrite recordUsage_eq. simpl.
    intros Hmono sid' stored Hl. destruct (H1 Hmono sid' stored Hl) as [Hchron Hbound].
    split; [done|]. intros message k Hin Hk. simpl in Hk. apply Hbound; [done|lia].
  - intros sid a c t w1 Hwf _ H1. by apply timed_saveMessage.
  - intros uuids dates _ sid stored Hl. simpl in Hl. by rewrite lookup_empty in Hl.
Qed.

End IdFacts.

(** X8: in every reachable world, if [uuidv4()] never repeats a value, no
    two stored messages have the same id, within a session or across
    sessions: two positions of the histories that hold the same id are
    the same position of the same session. *)
Theorem message_ids_unique (w : World) (sessionId1 sessionId2 : string)
    (read1 read2 : list Message.t) (i1 i2 : nat) (message1 message2 : Message.t) :
  reachable w → Inj (=) (=) (uuid_source w) →
  fst (MessageService.getConversationHistory sessionId1 w) = Return read1 →
  fst (MessageService.getConversationHistory sessionId2 w) = Return read2 →
  read1 !! i1 = Some message1 → read2 !! i2 = Some message2 →
  Message.id message1 = Message.id message2 →
  sessionId1 = sessionId2 ∧ i1 = i2.
Proof.
  intros Hw Hinj [= <-] [= <-] H1 H2 Hid.
  apply (reachable_unique_ids w Hw Hinj sessionId1 i1 message1 sessionId2 i2 message2);
    try done.
  - destruct (messages w !! sessionId1) as [stored|] eqn:Hl;
      [by exists stored | simpl in H1; by rewrite lookup_nil in H1].
  - destruct (messages w !! sessionId2) as [stored|] eqn:Hl;
      [by exists stored | simpl in H2; by rewrite lookup_nil in H2].
Qed.

(** X9: in every reachable world, if the clock of the process never goes
    back, the history of a session is in chronological order: a message
    at an earlier position has no later time than one at a later
    position. *)
Theorem history_chronological (w : World) (sessionId : string)
    (read : list Message.t) :
  reachable w → clock_monotone w →
  fst (MessageService.getConversationHistory sessionId w) = Return read →
  chronological read.
Proof.
  intros Hw Hmono [= <-].
  destruct (messages w !! sessionId) as [stored|] eqn:Hl.
  - by destruct (reachable_timed w Hw Hmono sessionId stored Hl).
  - intros i j earlier later _ Hi. simpl in Hi. by rewrite lookup_nil in Hi.
Qed.

(** ** The ledger, record after record *)

Section SummaryFacts.
Import UsageService.

Lemma getSessionUsage_eq (sessionId : string) (w : World) :
  getSessionUsage sessionId w =
    (Return
       (UsageSummary.mk sessionId
          (fold_left (fun sum r => (sum + Number.of_Z (UsageRecord.inputTokens r))%float)
             (records w sessionId) 0%float)
          (fold_left (fun sum r => (sum + Number.of_Z (UsageRecord.outputTokens r))%float)
             (records w sessionId) 0%float)
          (fold_left (fun sum r => (sum + Number.of_Z (UsageRecord.inputTokens r))%float)
             (records w sessionId) 0%float
           + fold_left (fun sum r => (sum + Number.of_Z (UsageRecord.outputTokens r))%float)
               (records w sessionId) 0%float)%float
          (length (records w sessionId))
          (toFixed6
             (fold_left (fun sum r => (sum + Number.of_Z (UsageRecord.inputTokens r))%float)
                (records w sessionId) 0%float * COST_PER_INPUT_TOKEN
              + fold_left (fun sum r => (sum + Number.of_Z (UsageRecord.outputTokens r))%float)
                  (records w sessionId) 0%float * COST_PER_OUTPUT_TOKEN)%float)),
     w).
Proof. reflexivity. Qed.

Lemma safe_totals_snoc (l : list UsageRecord.t) (r : UsageRecord.t) :
  safe_totals (l ++ [r]) → safe_totals l.
Proof.
  unfold safe_totals. intros Hsafe. eapply Z.le_lt_trans; [|exact Hsafe].
  clear Hsafe. induction l as [|a l IH]; cbn [app foldr]; lia.
Qed.

End SummaryFacts.

(** X10: recording usage adds to the summary of the session: the number of
    calls grows by one, the input and output totals are the old totals
    plus, in binary64, the recorded counts, and the total of the two and
    the cost are computed anew from them. When the token counts of the
    session's records add up, in magnitude, to less than [2^53], the three
    totals grow by exactly the recorded counts. The summary of every other
    session is the same as before. *)
Theorem recordUsage_adds_to_summary (w : World) (sessionId : string)
    (inputTokens outputTokens : Z) (model : string) :
  let w' := snd (UsageService.recordUsage sessionId inputTokens outputTokens model w) in
  ∃ before after,
    fst (UsageService.getSessionUsage sessionId w) = Return before
    ∧ fst (UsageService.getSessionUsage sessionId w') = Return after
    ∧ UsageSummary.totalInputTokens after
      = (UsageSummary.totalInputTokens before + Number.of_Z inputTokens)%float
    ∧ UsageSummary.totalOutputTokens after
      = (UsageSummary.totalOutputTokens before + Number.of_Z outputTokens)%float
    ∧ UsageSummary.totalTokens after
      = (UsageSummary.totalInputTokens after
         + UsageSummary.totalOutputTokens after)%float
    ∧ UsageSummary.apiCalls after = S (UsageSummary.apiCalls before)
    ∧ UsageSummary.estimatedCostUsd after
      = UsageService.toFixed6
          (UsageSummary.totalInputTokens after * UsageService.COST_PER_INPUT_TOKEN
           + UsageSummary.totalOutputTokens after * UsageService.COST_PER_OUTPUT_TOKEN)%float
    ∧ (safe_totals (records w' sessionId) →
       ∃ totalIn totalOut,
         Number.to_Z (UsageSummary.totalInputTokens before) = Some totalIn
         ∧ Number.to_Z (UsageSummary.totalOutputTokens before) = Some totalOut
         ∧ Number.to_Z (UsageSummary.totalInputTokens after)
           = Some (totalIn + inputTokens)%Z
         ∧ Number.to_Z (UsageSummary.totalOutputTokens after)
           = Some (totalOut + outputTokens)%Z
         ∧ Number.to_Z (UsageSummary.totalTokens after)
           = Some (totalIn + inputTokens + (totalOut + outputTokens))%Z)
    ∧ ∀ other, other ≠ sessionId →
        fst (UsageService.getSessionUsage other w')
        = fst (UsageService.getSessionUsage other w).
Proof.
  intros w'. subst w'. rewrite recordUsage_eq. cbn [snd].
  set (w' := set_usageStore _ _).
  assert (records w' sessionId
          = records w sessionId
            ++ [UsageRecord.mk sessionId inputTokens outputTokens model
                  (clock w (clock_calls w))]) as Hrec.
  { unfold records, w'. simpl. by rewrite lookup_insert_eq. }
  rewrite !getSessionUsage_eq, Hrec. cbn [fst].
  eexists _, _. split; [reflexivity|]. split; [reflexivity|].
  cbn [UsageSummary.apiCalls UsageSummary.estimatedCostUsd
       UsageSummary.totalInputTokens UsageSummary.totalOutputTokens
       UsageSummary.totalTokens].
  split; [by rewrite fold_left_app|]. split; [by rewrite fold_left_app|].
  split; [done|]. split; [rewrite length_app; simpl; lia|]. split; [done|].
  split.
  - intros Hsafe.
    destruct (totals_exact _ Hsafe) as (-> & -> & -> & Hin & Hout & Hsum).
    destruct (totals_exact _ (safe_totals_snoc _ _ Hsafe))
      as (-> & -> & _ & Hin0 & Hout0 & _).
    revert Hin Hout Hsum. rewrite !foldr_add_snoc.
    cbn [UsageRecord.inputTokens UsageRecord.outputTokens]. intros Hin Hout Hsum.
    eexists _, _. by rewrite !to_Z_of_Z.
  - intros other Hne. unfold records, w'. simpl.
    by rewrite lookup_insert_ne.
Qed.

(** ** The store alone *)

(** X11: a session just created can be read back and written to: after
    [createSession], in any state of the store, [getSession] returns the
    record that was returned, [getMessages] the empty sequence, and
    [addMessage] does not throw and makes the message the only one of the
    session. *)
Theorem createSession_then_addMessage (w : World) (sessionId topic : string)
    (message : Message.t) :
  ∃ session w1 w2,
    SessionStore.createSession sessionId topic w = (Return session, w1)
    ∧ Session.id session = sessionId
    ∧ Session.topic session = topic
    ∧ fst (SessionStore.getSession sessionId w1) = Return (Some session)
    ∧ fst (SessionStore.getMessages sessionId w1) = Return []
    ∧ SessionStore.addMessage sessionId message w1 = (Return tt, w2)
    ∧ fst (SessionStore.getMessages sessionId w2) = Return [message]
    ∧ fst (SessionStore.getSession sessionId w2) = Return (Some session).
Proof.
  eexists _, _, _. split; [apply createSession_eq|].
  split; [done|]. split; [done|].
  unfold SessionStore.getSession, SessionStore.getMessages, gets. simpl.
  rewrite !lookup_insert_eq. split; [done|]. split; [done|].
  split; [apply addMessage_Some; simpl; apply lookup_insert_eq|].
  simpl. rewrite !lookup_insert_eq. by split.
Qed.

(** ** Posting a message *)

Section PostFacts.
Import AIService.

Lemma handle_Call_stores (sessionId : string) (w : World) :
  same_stores w (handle (Call sessionId) w).
Proof.
  unfold handle.
  eapply same_stores_trans; [apply getAIResponse_stores|apply run_microtasks_stores].
Qed.

Lemma handle_Call_length (sessionId : string) (w : World) :
  length (tasks (handle (Call sessionId) w)) = S (length (tasks w)).
Proof.
  unfold handle, run_microtasks.
  fold (resume_all (seq 0 (length (tasks (getAIResponse sessionId w))))
          (getAIResponse sessionId w)).
  rewrite resume_all_length. unfold getAIResponse.
  destruct (sessionLocks w !! sessionId); [|rewrite enter_eq]; simpl;
    rewrite length_app; simpl; lia.
Qed.

Lemma handle_Call_admitted (sessionId : string) (w : World) :
  sessionLocks w !! sessionId = None →
  tasks (handle (Call sessionId) w) !! length (tasks w)
  = Some (Task.mk sessionId
            (AwaitModel (promises w) (formatMessagesForClaude (history w sessionId)))).
Proof.
  intros Hl. unfold handle. apply run_microtasks_keeps.
  - unfold getAIResponse. rewrite Hl, enter_eq. simpl. by apply list_lookup_middle.
  - intros [p Hp]. discriminate.
Qed.

Lemma saveMessage_other (sessionId : string) (author : MessageAuthor)
    (content : string) (topic : option string) (w : World) (other : string) :
  store_wf w → other ≠ sessionId →
  let w' := snd (MessageService.saveMessage sessionId author content topic w) in
  history w' other = history w other
  ∧ records w' other = records w other
  ∧ sessions w' !! other = sessions w !! other.
Proof.
  intros Hwf Hne.
  destruct (saveMessage_result sessionId author content topic w Hwf)
    as (w' & -> & Hm & Hs & Hu & _). simpl.
  unfold history, records. rewrite Hm, Hs, Hu, lookup_insert_ne by done.
  repeat split. destruct (sessions w !! sessionId); [done|].
  by rewrite lookup_insert_ne.
Qed.

Lemma complete_other (sessionId : string) (response : ApiMessage.t) (w : World)
    (other : string) :
  store_wf w → other ≠ sessionId →
  let w' := snd (complete sessionId response w) in
  history w' other = history w other
  ∧ records w' other = records w other
  ∧ sessions w' !! other = sessions w !! other.
Proof.
  intros Hwf Hne. unfold complete, bind. rewrite recordUsage_eq.
  set (w1 := set_usageStore _ _).
  assert (store_wf w1) as Hwf1 by exact Hwf.
  pose proof (saveMessage_other sessionId ai
                (extractText (ApiMessage.content response)) None w1 other Hwf1 Hne)
    as (Hh & Hr & Hs).
  destruct (MessageService.saveMessage _ _ _ _ w1) as [[message|e] w2];
    simpl in *; rewrite Hh, Hr, Hs; unfold records, w1; simpl;
    by rewrite lookup_insert_ne.
Qed.

Lemma settle_other (call : nat) (reply : Outcome ApiMessage.t) (w : World)
    (other : string) :
  store_wf w → Task.sessionId <$> tasks w !! call ≠ Some other →
  let w' := settle call reply w in
  history w' other = history w other
  ∧ records w' other = records w other
  ∧ sessions w' !! other = sessions w !! other.
Proof.
  intros Hwf Hne. unfold settle.
  destruct (tasks w !! call) as [[sessionId [existingLock|lock request|result]]|];
    try done.
  assert (other ≠ sessionId) as Hne' by (intros ->; by apply Hne).
  unfold try_finally. destruct reply as [response|e]; [|done].
  pose proof (complete_other sessionId response w other Hwf Hne') as Hother.
  by destruct (complete sessionId response w) as [result w2].
Qed.

Lemma reachable_sessions_speak (w : World) : reachable w → sessions_speak w.
Proof.
  apply (invariant_reachable sessions_speak).
  - intros w1 w2 (Hs & Hm & _) H1 sid session. unfold history.
    rewrite Hs, Hm. apply H1.
  - intros sid i o m w1 H1. by rewrite recordUsage_eq.
  - intros sid a c t w1 Hwf _ H1.
    destruct (saveMessage_result sid a c t w1 Hwf) as (w' & -> & Hm & Hs & _).
    simpl. intros sid' session. unfold history. rewrite Hm, Hs.
    destruct (decide (sid = sid')) as [->|Hne].
    + rewrite lookup_insert_eq. simpl. intros _.
      by destruct (default [] (messages w1 !! sid')).
    + rewrite lookup_insert_ne by done. intros Hsession. apply (H1 sid' session).
      destruct (sessions w1 !! sid); [done|]. by rewrite lookup_insert_ne in Hsession.
  - intros uuids dates sid session Hs. simpl in Hs. by rewrite lookup_empty in Hs.
Qed.

End PostFacts.

(** X12: [POST /message] on a store where [sessions] and [messages] hold
    the same ids. A request with an empty session id, an empty content or
    an author that is not one of the two partners changes nothing: nobody
    posts as the model. Any other request adds exactly the posted message
    to the end of the session's history, records no usage, and adds one
    call of [getAIResponse]; with no entry for the session in
    [sessionLocks] that call is in flight at once, and the request it
    sent is the shaped history with the posted message as its last
    turn. *)
Theorem post_message_effect (w : World) (req : Routes.SendMessageRequest.t) :
  store_wf w →
  let sessionId := Routes.SendMessageRequest.sessionId req in
  let author := Routes.SendMessageRequest.author req in
  let content := Routes.SendMessageRequest.content req in
  let w' := Routes.post_message req w in
  (sessionId = "" ∨ content = "" ∨ (author ≠ partner_a ∧ author ≠ partner_b) →
   w' = w)
  ∧ (sessionId ≠ "" → content ≠ "" → author = partner_a ∨ author = partner_b →
     ∃ message,
       Message.sessionId message = sessionId
       ∧ Message.author message = author
       ∧ Message.content message = content
       ∧ fst (MessageService.getConversationHistory sessionId w')
         = Return (history w sessionId ++ [message])
       ∧ usageStore w' = usageStore w
       ∧ length (tasks w') = S (length (tasks w))
       ∧ (sessionLocks w !! sessionId = None →
          tasks w' !! length (tasks w)
          = Some (Task.mk sessionId
                    (AwaitModel (promises w)
                       (AIService.formatMessagesForClaude
                          (history w sessionId ++ [message])))))).
Proof.
  intros Hwf sessionId author content w'. subst w'. unfold Routes.post_message.
  fold sessionId author content. split.
  - intros [Hs|[Hc|Ha]].
    + rewrite bool_decide_eq_true_2; [done|by left].
    + rewrite bool_decide_eq_true_2; [done|by right].
    + case_bool_decide; [done|]. by rewrite bool_decide_eq_true_2.
  - intros Hs Hc Ha.
    rewrite bool_decide_eq_false_2 by (intros [?|?]; done).
    rewrite bool_decide_eq_false_2 by (intros [? ?]; by destruct Ha).
    destruct (saveMessage_result sessionId author content
                (Routes.SendMessageRequest.topic req) w Hwf)
      as (w1 & -> & Hm & _ & Hu & _ & _ & Hrt).
    destruct Hrt as (Hl & Hp & _ & Ht & _).
    exists (saved sessionId author content w
              match sessions w !! sessionId with None => 1 | Some _ => 0 end).
    split; [reflexivity|]. split; [reflexivity|]. split; [reflexivity|].
    destruct (handle_Call_stores sessionId w1) as (_ & Hm' & Hu' & _).
    assert (history w1 sessionId
            = history w sessionId
              ++ [saved sessionId author content w
                    match sessions w !! sessionId with None => 1 | Some _ => 0 end])
      as Hh.
    { unfold history. by rewrite Hm, lookup_insert_eq. }
    split; [|split; [|split]].
    + rewrite history_read. unfold history at 1. rewrite Hm'.
      fold (history w1 sessionId). by rewrite Hh.
    + by rewrite Hu', Hu.
    + by rewrite handle_Call_length, Ht.
    + intros Hnone. rewrite <- Ht, <- Hp, <- Hh.
      apply handle_Call_admitted. by rewrite Hl.
Qed.

(** X13: what is handled for one session leaves the others alone. On a
    store where [sessions] and [messages] hold the same ids, an event
    about a call of another session, and a request posted to another
    session, leave the history, the usage summary and the session record
    of a session exactly as they were. *)
Theorem other_sessions_untouched (w : World) (sessionId : string) :
  store_wf w →
  (∀ ev, event_session w ev ≠ Some sessionId →
     fst (MessageService.getConversationHistory sessionId (AIService.handle ev w))
     = fst (MessageService.getConversationHistory sessionId w)
     ∧ fst (UsageService.getSessionUsage sessionId (AIService.handle ev w))
       = fst (UsageService.getSessionUsage sessionId w)
     ∧ fst (MessageService.getSession sessionId (AIService.handle ev w))
       = fst (MessageService.getSession sessionId w))
  ∧ (∀ req, Routes.SendMessageRequest.sessionId req ≠ sessionId →
       fst (MessageService.getConversationHistory sessionId (Routes.post_message req w))
       = fst (MessageService.getConversationHistory sessionId w)
       ∧ fst (UsageService.getSessionUsage sessionId (Routes.post_message req w))
         = fst (UsageService.getSessionUsage sessionId w)
       ∧ fst (MessageService.getSession sessionId (Routes.post_message req w))
         = fst (MessageService.getSession sessionId w)).
Proof.
  intros Hwf.
  assert (∀ w1 w2,
            history w2 sessionId = history w1 sessionId
            ∧ records w2 sessionId = records w1 sessionId
            ∧ sessions w2 !! sessionId = sessions w1 !! sessionId →
            fst (MessageService.getConversationHistory sessionId w2)
            = fst (MessageService.getConversationHistory sessionId w1)
            ∧ fst (UsageService.getSessionUsage sessionId w2)
              = fst (UsageService.getSessionUsage sessionId w1)
            ∧ fst (MessageService.getSession sessionId w2)
              = fst (MessageService.getSession sessionId w1)) as Hread.
  { intros w1 w2 (Hh & Hr & Hs). rewrite !history_read, !getSessionUsage_eq, Hh, Hr.
    unfold MessageService.getSession, SessionStore.getSession, gets. simpl.
    by rewrite Hs. }
  assert (∀ w1 w2, same_stores w1 w2 →
            history w2 sessionId = history w1 sessionId
            ∧ records w2 sessionId = records w1 sessionId
            ∧ sessions w2 !! sessionId = sessions w1 !! sessionId) as Hsame.
  { intros w1 w2 (Hs & Hm & Hu & _). unfold history, records. by rewrite Hs, Hm, Hu. }
  split.
  - intros ev Hev. apply Hread. unfold AIService.handle.
    destruct (Hsame _ _ (run_microtasks_stores
                (match ev with
                 | AIService.Call sid => AIService.getAIResponse sid w
                 | AIService.ModelReplied call response =>
                     AIService.settle call (Return response) w
                 | AIService.ModelFailed call e => AIService.settle call (Throw e) w
                 end))) as (-> & -> & ->).
    destruct ev as [sid|call response|call e].
    + apply Hsame, getAIResponse_stores.
    + by apply settle_other.
    + by apply settle_other.
  - intros req Hreq. apply Hread. unfold Routes.post_message.
    repeat case_bool_decide; try done.
    pose proof (saveMessage_other (Routes.SendMessageRequest.sessionId req)
                  (Routes.SendMessageRequest.author req)
                  (Routes.SendMessageRequest.content req)
                  (Routes.SendMessageRequest.topic req) w sessionId Hwf
                  (not_eq_sym Hreq)) as Hother.
    destruct (MessageService.saveMessage _ _ _ _ w) as [[message|e] w1]; [|done].
    simpl in Hother.
    destruct (Hsame _ _ (handle_Call_stores
                (Routes.SendMessageRequest.sessionId req) w1)) as (-> & -> & ->).
    done.
Qed.

(** ** The read-only routes *)

(** X14: [GET /messages/:sessionId] in a reachable world never fails. It
    answers 404 exactly when no message was ever saved for the id; else
    it answers the session's id, topic and creation time and, in the
    order of the history and one for one, the id, author, content and
    time of each message. *)
Theorem get_messages_lists_history (w : World) (sessionId : string) :
  reachable w →
  match Routes.get_messages sessionId w with
  | Routes.Status code error =>
      code = 404 ∧ sessions w !! sessionId = None ∧ history w sessionId = []
  | Routes.Json body =>
      history w sessionId ≠ []
      ∧ (∃ session,
           sessions w !! sessionId = Some session
           ∧ Routes.MessagesBody.session body
             = Routes.SessionView.mk (Session.id session) (Session.topic session)
                 (Session.createdAt session))
      ∧ length (Routes.MessagesBody.messages body) = length (history w sessionId)
      ∧ ∀ i message,
          history w sessionId !! i = Some message →
          Routes.MessagesBody.messages body !! i
          = Some (Routes.MessageView.mk (Message.id message) (Message.author message)
                    (Message.content message) (Message.createdAt message))
  | Routes.Uncaught _ => False
  end.
Proof.
  intros Hw. destruct (reachable_invariants w Hw) as [Hwf _].
  pose proof (reachable_sessions_speak w Hw sessionId) as Hspeak.
  unfold Routes.get_messages, MessageService.getSession, SessionStore.getSession,
    gets. simpl.
  destruct (sessions w !! sessionId) as [session|] eqn:Hs; simpl.
  - split; [by eapply Hspeak|]. split; [by exists session|].
    split; [apply length_map|].
    intros i message Hi. fold (history w sessionId).
    change (map ?f ?l) with (f <$> l). by rewrite list_lookup_fmap, Hi.
  - repeat split. unfold history.
    by rewrite (proj1 (store_wf_None w sessionId Hwf) Hs).
Qed.

(** X15: [GET /usage/:sessionId] in a reachable world never fails. When
    it answers 404 the session has no usage record, so no recorded usage
    is hidden; else it answers the summary of the session and, in order
    and one for one, the counts, model and time of each record, as many
    as the summary's number of calls. *)
Theorem get_usage_lists_records (w : World) (sessionId : string) :
  reachable w →
  match Routes.get_usage sessionId w with
  | Routes.Status code error =>
      code = 404 ∧ fst (UsageService.getSessionUsageRecords sessionId w) = Return []
  | Routes.Json body =>
      fst (UsageService.getSessionUsage sessionId w)
      = Return (Routes.UsageBody.summary body)
      ∧ length (Routes.UsageBody.records body)
        = UsageSummary.apiCalls (Routes.UsageBody.summary body)
      ∧ ∀ i record,
          records w sessionId !! i = Some record →
          Routes.UsageBody.records body !! i
          = Some (Routes.RecordView.mk (UsageRecord.inputTokens record)
                    (UsageRecord.outputTokens record) (UsageRecord.model record)
                    (UsageRecord.createdAt record))
  | Routes.Uncaught _ => False
  end.
Proof.
  intros Hw. destruct (reachable_invariants w Hw) as [Hwf _].
  destruct (reachable_accounts w Hw sessionId) as [Hr Hh].
  unfold Routes.get_usage, MessageService.getSession, SessionStore.getSession,
    gets. rewrite getSessionUsage_eq. simpl.
  destruct (sessions w !! sessionId) as [session|] eqn:Hs; simpl.
  - split; [done|]. fold (records w sessionId). split; [apply length_map|].
    intros i record Hi.
    change (map ?f ?l) with (f <$> l). by rewrite list_lookup_fmap, Hi.
  - split; [done|]. fold (records w sessionId).
    assert (history w sessionId = []) as Hnil.
    { unfold history. by rewrite (proj1 (store_wf_None w sessionId Hwf) Hs). }
    rewrite Hnil in Hh. simpl in Hh. rewrite <- Hh in Hr.
    by rewrite (nil_length_inv _ Hr).
Qed.

(** ** The chat bubble *)

(** X16: for a viewer who is one of the two partners, a bubble is
    labelled "S3ttle" exactly for a message of the model and "You"
    exactly for the viewer's own message, which is also exactly when it
    is put on the right; and a message of a partner labelled "You" for
    one partner is labelled "Partner" for the other. *)
Theorem bubble_label_by_viewer (author viewer other : MessageAuthor) :
  (viewer = partner_a ∧ other = partner_b)
  ∨ (viewer = partner_b ∧ other = partner_a) →
  (ChatBubble.authorLabel author viewer = "S3ttle" ↔ author = ai)
  ∧ (ChatBubble.authorLabel author viewer = "You" ↔ author = viewer)
  ∧ (ChatBubble.justify author viewer = "justify-end" ↔ author = viewer)
  ∧ (ChatBubble.authorLabel author viewer = "Partner"
     ↔ ChatBubble.isPartner author viewer = true)
  ∧ (author = partner_a ∨ author = partner_b →
     (ChatBubble.authorLabel author viewer = "You"
      ↔ ChatBubble.authorLabel author other = "Partner")).
Proof.
  intros [[-> ->]|[-> ->]]; destruct author;
    cbv [ChatBubble.authorLabel ChatBubble.justify ChatBubble.isPartner
         ChatBubble.isOwn ChatBubble.isAI];
    simpl; intuition congruence.
Qed.

(** ** Who is in flight after a call exits *)

Section ExitFacts.
Import AIService.

Lemma settle_other_task (holder : nat) (reply : Outcome ApiMessage.t) (w : World)
    (call : nat) :
  call ≠ holder → tasks (settle holder reply w) !! call = tasks w !! call.
Proof.
  intros Hne. unfold settle.
  destruct (tasks w !! holder) as [[sessionId [existingLock|lock request|result]]|];
    try done.
  unfold try_finally. destruct reply as [response|e].
  - pose proof (complete_runtime sessionId response w) as (_ & _ & _ & Hts & _).
    destruct (complete sessionId response w) as [result w2]. simpl in *.
    by rewrite list_lookup_insert_ne, Hts.
  - simpl. by rewrite list_lookup_insert_ne.
Qed.

Lemma settle_settled (holder : nat) (reply : Outcome ApiMessage.t) (w : World)
    (sessionId : string) (lock : Promise) (request : list MessageParam.t) :
  tasks w !! holder = Some (Task.mk sessionId (AwaitModel lock request)) →
  ∃ result,
    tasks (settle holder reply w) !! holder
    = Some (Task.mk sessionId (Settled result)).
Proof.
  intros Hh. assert (holder < length (tasks w)) by (by eapply lookup_lt_Some).
  unfold settle. rewrite Hh. unfold try_finally. destruct reply as [response|e].
  - pose proof (complete_runtime sessionId response w) as (_ & _ & _ & Hts & _).
    destruct (complete sessionId response w) as [result w2]. simpl in *.
    exists result. apply list_lookup_insert_eq. by rewrite Hts.
  - simpl. exists (Throw e). by apply list_lookup_insert_eq.
Qed.

Lemma settle_resolved_eq (holder : nat) (reply : Outcome ApiMessage.t) (w : World)
    (sessionId : string) (lock : Promise) (request : list MessageParam.t) :
  tasks w !! holder = Some (Task.mk sessionId (AwaitModel lock request)) →
  resolved (settle holder reply w) = {[lock]} ∪ resolved w.
Proof.
  intros Hh. unfold settle. rewrite Hh. unfold try_finally.
  destruct reply as [response|e]; [|done].
  pose proof (complete_runtime sessionId response w) as (_ & _ & Hr & _).
  destruct (complete sessionId response w) as [result w2]. simpl in *.
  by rewrite Hr.
Qed.

Lemma awake_runtime (w w' : World) (call : nat) :
  same_runtime w w' → awake w call → awake w' call.
Proof.
  intros (_ & _ & Hr & Ht & _). unfold awake. by rewrite Hr, Ht.
Qed.

Lemma reachable_awake (w : World) (call : nat) : reachable w → awake w call.
Proof.
  induction 1 as [uuids dates|req w _ IH|ev w _ IH].
  - intros t lock Ht. simpl in Ht. by rewrite lookup_nil in Ht.
  - unfold Routes.post_message. repeat case_bool_decide; try done.
    pose proof (saveMessage_runtime (Routes.SendMessageRequest.sessionId req)
                  (Routes.SendMessageRequest.author req)
                  (Routes.SendMessageRequest.content req)
                  (Routes.SendMessageRequest.topic req) w) as Hrt.
    destruct (MessageService.saveMessage _ _ _ _ w) as [[message|e] w'].
    + apply run_microtasks_awake.
    + by eapply awake_runtime.
  - apply run_microtasks_awake.
Qed.

End ExitFacts.

(** X17: who is in flight once a call has exited. In a reachable world,
    when the model call of the call that owns [lock] settles, with a
    response or with an error, the calls of a session past the lock
    afterwards are exactly the other calls that were past it before and
    all the calls of the session that waited for [lock]: one waiter gives
    one successor, several waiters are in flight together. *)
Theorem in_flight_after_exit (w : World) (holder : nat) (holding : string)
    (lock : Promise) (request : list MessageParam.t)
    (reply : Outcome ApiMessage.t) (sessionId : string) (call : nat) :
  reachable w →
  tasks w !! holder = Some (Task.mk holding (AwaitModel lock request)) →
  let ev := match reply with
            | Return response => AIService.ModelReplied holder response
            | Throw e => AIService.ModelFailed holder e
            end in
  AIService.holds sessionId (AIService.handle ev w) call = true
  ↔ (call ≠ holder ∧ AIService.holds sessionId w call = true)
    ∨ tasks w !! call = Some (Task.mk sessionId (AwaitLock lock)).
Proof.
  intros Hw Hh ev.
  assert (AIService.handle ev w
          = AIService.run_microtasks (AIService.settle holder reply w)) as ->
    by (subst ev; by destruct reply).
  set (w1 := AIService.settle holder reply w).
  destruct (decide (call = holder)) as [->|Hne].
  { destruct (settle_settled holder reply w _ _ _ Hh) as [result Hsettled].
    unfold AIService.holds at 1.
    rewrite (run_microtasks_keeps holder w1 _ Hsettled)
      by (intros [p Hp]; discriminate).
    rewrite Hh. split; [done|]. intros [[? _]|?]; done. }
  pose proof (settle_other_task holder reply w call Hne) as Hsame. fold w1 in Hsame.
  destruct (tasks w !! call) as [[sid pc]|] eqn:Hc.
  2: { unfold AIService.holds. rewrite Hc.
       assert (tasks (AIService.run_microtasks w1) !! call = None) as ->.
       { apply lookup_ge_None. unfold AIService.run_microtasks.
         fold (resume_all (seq 0 (length (tasks w1))) w1).
         rewrite resume_all_length. by apply lookup_ge_None. }
       split; [done|]. intros [[_ ?]|?]; done. }
  destruct pc as [p|own sent|result].
  - destruct (decide (p = lock)) as [->|Hp].
    + destruct (holder_exit w holder call holding sid lock request reply Hh Hc)
        as [_ [own Hown]]. fold w1 in Hown.
      unfold AIService.holds. rewrite Hown, Hc. split.
      * intros Hs%bool_decide_eq_true. right. by rewrite Hs.
      * intros [[_ ?]|[= ->]]; [done|]. by apply bool_decide_eq_true.
    + assert (p ∉ resolved (AIService.run_microtasks w1)) as Hres.
      { rewrite run_microtasks_resolved. unfold w1.
        rewrite (settle_resolved_eq _ _ _ _ _ _ Hh).
        intros [Hin%elem_of_singleton|Hin]%elem_of_union; [done|].
        by apply (reachable_awake w call Hw _ p Hc). }
      unfold AIService.holds.
      rewrite run_microtasks_resolved in Hres.
      unfold AIService.run_microtasks.
      fold (resume_all (seq 0 (length (tasks w1))) w1).
      rewrite (resume_all_waits (seq 0 (length (tasks w1))) w1 call _ p Hsame eq_refl)
        by done.
      rewrite Hc. split; [done|]. intros [[_ ?]|[= _ ?]]; done.
  - unfold AIService.holds.
    rewrite (run_microtasks_keeps call w1 _ Hsame) by (intros [p Hp]; discriminate).
    rewrite Hc. split; [by left|]. intros [[_ ?]|?]; done.
  - unfold AIService.holds.
    rewrite (run_microtasks_keeps call w1 _ Hsame) by (intros [p Hp]; discriminate).
    rewrite Hc. split; [done|]. intros [[_ ?]|?]; done.
Qed.

(** ** Everything is filed under its own id *)

Lemma reachable_filed (w : World) : reachable w → filed w.
Proof.
  apply (invariant_reachable filed).
  - intros w1 w2 (Hs & Hm & Hu & _) H1 sid. unfold history, records.
    rewrite Hs, Hm, Hu. apply H1.
  - intros sid i o m w1 H1. rewrite recordUsage_eq. simpl. intros sid'.
    destruct (H1 sid') as (Hs & Hm & Hr). split; [done|]. split; [done|].
    unfold records. simpl. destruct (decide (sid = sid')) as [->|Hne].
    + rewrite lookup_insert_eq. simpl.
      intros record [Hin|Hin]%elem_of_app; [by apply Hr|].
      by apply list_elem_of_singleton in Hin as ->.
    + by rewrite lookup_insert_ne.
  - intros sid a c t w1 Hwf _ H1.
    destruct (saveMessage_result sid a c t w1 Hwf) as (w' & -> & Hm & Hs & Hu & _).
    simpl. intros sid'. destruct (H1 sid') as (Hsession & Hmessage & Hrecord).
    unfold history, records. rewrite Hm, Hs, Hu. split; [|split; [|exact Hrecord]].
    + intros session. destruct (sessions w1 !! sid) eqn:Hl; [apply Hsession|].
      destruct (decide (sid = sid')) as [->|Hne].
      * rewrite lookup_insert_eq. by intros [= <-].
      * rewrite lookup_insert_ne by done. apply Hsession.
    + destruct (decide (sid = sid')) as [->|Hne].
      * rewrite lookup_insert_eq. simpl.
        intros message [Hin|Hin]%elem_of_app; [by apply Hmessage|].
        by apply list_elem_of_singleton in Hin as ->.
      * by rewrite lookup_insert_ne.
  - intros uuids dates sid. unfold history, records. simpl.
    rewrite !lookup_empty. simpl. repeat split; intros x Hx; try done.
    all: by apply elem_of_nil in Hx.
Qed.

(** X18: in every reachable world, what is stored under a session id
    belongs to that session: the session record has that id, every
    message of its history names it as its session, and so does every
    usage record of it. *)
Theorem stored_under_own_id (w : World) (sessionId : string) :
  reachable w →
  (∀ session,
     fst (MessageService.getSession sessionId w) = Return (Some session) →
     Session.id session = sessionId)
  ∧ (∀ read message,
       fst (MessageService.getConversationHistory sessionId w) = Return read →
       message ∈ read → Message.sessionId message = sessionId)
  ∧ (∀ listed record,
       fst (UsageService.getSessionUsageRecords sessionId w) = Return listed →
       record ∈ listed → UsageRecord.sessionId record = sessionId).
Proof.
  intros Hw. destruct (reachable_filed w Hw sessionId) as (Hs & Hm & Hr).
  split; [|split].
  - intros session [= Hsession]. by apply Hs.
  - intros read message [= <-]. apply Hm.
  - intros listed record [= <-]. apply Hr.
Qed.

(** ** The further statements on the scenarios *)

Lemma ex_first_reply_reachable : reachable ex_first_reply.
Proof. unfold ex_first_reply. apply reachable_event, ex_three_posts_reachable. Qed.

Lemma ex_one_post_reachable : reachable ex_one_post.
Proof. unfold ex_one_post, ex_post. apply reachable_post, reachable_boot. Qed.

Lemma ex_steps : rtc step ex_one_post ex_first_reply.
Proof.
  unfold ex_first_reply, ex_three_posts, ex_post.
  eapply rtc_l; [apply step_post|].
  eapply rtc_l; [apply step_post|].
  apply rtc_once, step_event.
Qed.

(** Calls 1 and 2 wait for lock 0, which call 0 holds. *)
Lemma reachable_locks_held_witness : in_flight ex_three_posts "s1" 0.
Proof.
  destruct (reachable_locks_held ex_three_posts ex_three_posts_reachable) as [_ Hwait].
  apply (Hwait 1). vm_compute. reflexivity.
Defined.

(** Call 0 fails: call 1, which waited for its lock, is in flight. *)
Lemma holder_exit_admits_waiters_witness :
  ∃ own read,
    tasks (AIService.handle (AIService.ModelFailed 0 (Error "overloaded"))
             ex_three_posts) !! 1
    = Some (Task.mk "s1" (AwaitModel own (AIService.formatMessagesForClaude read)))
    ∧ length read = 3.
Proof.
  destruct (holder_exit_admits_waiters ex_three_posts 0 1 "s1" "s1" 0
              [MessageParam.mk user "Partner A: Should we move?"]
              ltac:(vm_compute; reflexivity) ltac:(vm_compute; reflexivity)
              (AIService.ModelFailed 0 (Error "overloaded"))
              (or_intror (ex_intro _ (Error "overloaded") eq_refl)))
    as (_ & own & read & Hread & Hcall).
  exists own, read. split; [exact Hcall|].
  vm_compute in Hread. injection Hread as <-. reflexivity.
Defined.

(** A fourth call arrives while call 0 is in flight: call 1 still waits. *)
Lemma waiter_stays_until_resolved_witness :
  tasks (AIService.handle (AIService.Call "s1") ex_three_posts) !! 1
  = Some (Task.mk "s1" (AwaitLock 0)).
Proof.
  apply waiter_stays_until_resolved.
  - vm_compute. reflexivity.
  - intros Hin. vm_compute in Hin. discriminate.
Defined.

(** After the first reply: one usage record, one message of the model. *)
Lemma one_record_and_reply_per_success_witness :
  ∃ summary read,
    fst (UsageService.getSessionUsage "s1" ex_first_reply) = Return summary
    ∧ fst (MessageService.getConversationHistory "s1" ex_first_reply) = Return read
    ∧ UsageSummary.apiCalls summary = 1
    ∧ length (List.filter by_model read) = 1.
Proof.
  destruct (one_record_and_reply_per_success ex_first_reply "s1"
              ex_first_reply_reachable)
    as (summary & read & Hsummary & Hread & Hcalls & Hreplies).
  exists summary, read. split; [exact Hsummary|]. split; [exact Hread|].
  assert (successes ex_first_reply "s1" = 1) as Hone by (vm_compute; reflexivity).
  rewrite <- Hone. exact (conj Hcalls Hreplies).
Defined.

(** From the first post to the first reply the history of "s1" grew at
    its end. *)
Lemma transcript_append_only_witness :
  ∃ read read',
    fst (MessageService.getConversationHistory "s1" ex_one_post) = Return read
    ∧ fst (MessageService.getConversationHistory "s1" ex_first_reply) = Return read'
    ∧ read `prefix_of` read'.
Proof.
  destruct (transcript_append_only ex_one_post ex_first_reply "s1"
              ex_one_post_reachable ex_steps)
    as (read & read' & H1 & H2 & Hprefix & _).
  exists read, read'. exact (conj H1 (conj H2 Hprefix)).
Defined.

(** And so did its usage records. *)
Lemma usage_append_only_witness :
  ∃ before after,
    fst (UsageService.getSessionUsageRecords "s1" ex_one_post) = Return before
    ∧ fst (UsageService.getSessionUsageRecords "s1" ex_first_reply) = Return after
    ∧ before `prefix_of` after.
Proof.
  exact (usage_append_only ex_one_post ex_first_reply "s1"
           ex_one_post_reachable ex_steps).
Defined.

(** The reply with the id "3", read twice at position 3 of "s1". *)
Lemma message_ids_unique_witness : "s1" = "s1" ∧ 3 = 3.
Proof.
  apply (message_ids_unique ex_first_reply "s1" "s1"
           (history ex_first_reply "s1") (history ex_first_reply "s1")
           3 3
           (Message.mk "3" "s1" ai "Tell me more" 1770000000005)
           (Message.mk "3" "s1" ai "Tell me more" 1770000000005)
           ex_first_reply_reachable).
  - change (Inj (=) (=) ex_uuids). exact pretty_nat_inj.
  - reflexivity.
  - reflexivity.
  - vm_compute. reflexivity.
  - vm_compute. reflexivity.
  - reflexivity.
Defined.

(** The history of "s1" after the first reply, under the scenario's clock. *)
Lemma history_chronological_witness :
  chronological (history ex_first_reply "s1").
Proof.
  apply (history_chronological ex_first_reply "s1" _ ex_first_reply_reachable).
  - change (∀ a b, a ≤ b → (ex_dates a ≤ ex_dates b)%Z).
    intros a b Hab. unfold ex_dates. lia.
  - reflexivity.
Defined.

(** The first post of the scenario. *)
Lemma post_message_effect_witness :
  ∃ message,
    Message.author message = partner_a
    ∧ Message.content message = "Should we move?"
    ∧ fst (MessageService.getConversationHistory "s1" ex_one_post)
      = Return (history ex_boot "s1" ++ [message])
    ∧ length (tasks ex_one_post) = 1.
Proof.
  destruct (post_message_effect ex_boot
              (Routes.SendMessageRequest.mk "s1" partner_a "Should we move?"
                 (Some "Moving"))
              (store_wf_boot ex_uuids ex_dates)) as [_ Haccepted].
  destruct Haccepted as (message & _ & Hauthor & Hcontent & Hread & _ & Hlen & _).
  - discriminate.
  - discriminate.
  - by left.
  - exists message. exact (conj Hauthor (conj Hcontent (conj Hread Hlen))).
Defined.

(** A reply for "s1" leaves the session "s2" as it was. *)
Lemma other_sessions_untouched_witness :
  fst (MessageService.getConversationHistory "s2" ex_first_reply)
  = fst (MessageService.getConversationHistory "s2" ex_three_posts).
Proof.
  destruct (other_sessions_untouched ex_three_posts "s2") as [Hevent _].
  - apply reachable_invariants, ex_three_posts_reachable.
  - apply (Hevent (AIService.ModelReplied 0 (ex_reply "Tell me more"))).
    vm_compute. discriminate.
Defined.

(** The listing of "s1" after three posts. *)
Lemma get_messages_lists_history_witness :
  match Routes.get_messages "s1" ex_three_posts with
  | Routes.Json body => length (Routes.MessagesBody.messages body) = 3
  | _ => False
  end.
Proof.
  pose proof (get_messages_lists_history ex_three_posts "s1"
                ex_three_posts_reachable) as Hlist.
  destruct (Routes.get_messages "s1" ex_three_posts) as [body|code error|e].
  - destruct Hlist as (_ & _ & Hlen & _). rewrite Hlen. vm_compute. reflexivity.
  - destruct Hlist as (_ & _ & Hnil). vm_compute in Hnil. discriminate.
  - exact Hlist.
Defined.

(** The usage of a session nobody posted to. *)
Lemma get_usage_lists_records_witness :
  match Routes.get_usage "s2" ex_three_posts with
  | Routes.Status code _ => code = 404
  | Routes.Json body => UsageSummary.apiCalls (Routes.UsageBody.summary body) = 0
  | Routes.Uncaught _ => False
  end.
Proof.
  pose proof (get_usage_lists_records ex_three_posts "s2"
                ex_three_posts_reachable) as Hlist.
  destruct (Routes.get_usage "s2" ex_three_posts) as [body|code error|e].
  - destruct Hlist as (Hsummary & _). rewrite getSessionUsage_eq in Hsummary.
    injection Hsummary as <-. vm_compute. reflexivity.
  - exact (proj1 Hlist).
  - exact Hlist.
Defined.

(** Partner B's message on partner A's screen. *)
Lemma bubble_label_by_viewer_witness :
  ChatBubble.authorLabel partner_b partner_a = "Partner"
  ↔ ChatBubble.isPartner partner_b partner_a = true.
Proof.
  destruct (bubble_label_by_viewer partner_b partner_a partner_b
              (or_introl (conj eq_refl eq_refl))) as (_ & _ & _ & Hpartner & _).
  exact Hpartner.
Defined.

(** Call 0 fails while calls 1 and 2 wait for its lock: call 2 is past the
    lock afterwards. *)
Lemma in_flight_after_exit_witness :
  AIService.holds "s1"
    (AIService.handle (AIService.ModelFailed 0 (Error "overloaded")) ex_three_posts)
    2 = true.
Proof.
  apply (in_flight_after_exit ex_three_posts 0 "s1" 0
           [MessageParam.mk user "Partner A: Should we move?"]
           (Throw (Error "overloaded")) "s1" 2 ex_three_posts_reachable).
  - vm_compute. reflexivity.
  - right. vm_compute. reflexivity.
Defined.

(** The messages of "s1" after the first reply. *)
Lemma stored_under_own_id_witness :
  Forall (λ message, Message.sessionId message = "s1")
         (history ex_first_reply "s1").
Proof.
  destruct (stored_under_own_id ex_first_reply "s1" ex_first_reply_reachable)
    as (_ & Hmessages & _).
  apply Forall_forall. intros message.
  exact (Hmessages (history ex_first_reply "s1") message eq_refl).
Defined.
